(** * csim.c: a set-associative cache simulator with LRU eviction

    A shallow embedding of [src/csim.c] and the properties of its
    simulation engine: the address decomposition ([parse_address]), the
    cache allocation ([cache_init]), the hit / fill / evict step of
    [parse_trace] and the driver ([main]).

    Conventions.
    - C integers are modelled in [Z].  Unsigned conversions are written
      out as reductions modulo [2^32] and [2^64]; the conversion of an
      [unsigned int] to [int] wraps (as gcc and clang define it).
    - An operation that ISO C leaves undefined (a shift by a negative
      count or by at least the width of the operand, a signed overflow,
      an access outside an array) makes the embedded function return
      [None]. *)

From stdpp Require Import base option list numbers strings.
From Stdlib Require Import ZArith Lia Ascii.

Local Open Scope Z_scope.

(** ** Machine integers *)

Definition INT_MAX : Z := 2 ^ 31 - 1.

(** Conversion to [unsigned int] and to [unsigned long]. *)
Definition to_uint (z : Z) : Z := z mod 2 ^ 32.
Definition to_ulong (z : Z) : Z := z mod 2 ^ 64.

(** Conversion of an [unsigned int] value to [int]. *)
Definition to_int (u : Z) : Z := if u <? 2 ^ 31 then u else u - 2 ^ 32.

(** [x >> n] and [x << n] on [unsigned long]: undefined unless
    [0 <= n < 64]. *)
Definition shr_ul (x n : Z) : option Z :=
  if (0 <=? n) && (n <? 64) then Some (Z.shiftr x n) else None.

Definition shl_ul (x n : Z) : option Z :=
  if (0 <=? n) && (n <? 64) then Some (to_ulong (Z.shiftl x n)) else None.

(** [~x] on [unsigned long]. *)
Definition not_ul (x : Z) : Z := to_ulong (Z.lnot x).

(** [1 << n] on [int]: undefined unless the result fits, [0 <= n < 31]. *)
Definition shl_int_1 (n : Z) : option Z :=
  if (0 <=? n) && (n <? 31) then Some (Z.shiftl 1 n) else None.

(** [x++] on an [int]: undefined at [INT_MAX]. *)
Definition incr (x : Z) : option Z :=
  if x <? INT_MAX then Some (x + 1) else None.

(** ** Data (csim.c lines 23-51) *)

Record block := Block {
  valid_bit : bool;
  tag : Z;
  lri : Z
}.

Record set := CSet {
  index : Z;
  arr_blocks : list block
}.

Inductive trace_type := LOAD | STORE | MODIFY.

(** The [end] flag of the C struct marks the sentinel after the last
    line; a trace is the list of the lines before it. *)
Record trace_line := TraceLine {
  type : trace_type;
  address : Z
}.

(** The global variables.  [tag_index] holds the pair
    [(tag_index[0], tag_index[1])], the tag and the set index. *)
Record state := State {
  sets : Z;
  lines : Z;
  block_bits : Z;
  lri_count : Z;
  miss : Z;
  hit : Z;
  evictions : Z;
  tag_index : Z * Z;
  cache : list set
}.

(** The assignments to [tag_index[0]] and [tag_index[1]]. *)
Definition set_tag_index (st : state) (ti : Z * Z) : state :=
  State (sets st) (lines st) (block_bits st) (lri_count st)
        (miss st) (hit st) (evictions st) ti (cache st).

(** ** [parse_address] (lines 355-363) *)

Definition parse_address (address s b : Z) (st : state) : option state :=
  x ← shr_ul address b;
  m ← shl_ul (not_ul 0) s;
  t ← shr_ul address (s + b);
  let set_index := to_uint (Z.land x (not_ul m)) in
  let tag := to_uint t in
  Some (set_tag_index st (tag, set_index)).

(** ** [cache_init] (lines 129-150)

    [sets = 1 << s] and [block_bits = 1 << b] are shifts on [int].  The
    array of a set has [lines] blocks, none when [lines <= 0]; every
    block starts invalid with tag and lri [-1]. *)

Definition cache_init (s E b : Z) (st : state) : option state :=
  n_sets ← shl_int_1 s;
  n_bits ← shl_int_1 b;
  let blocks := replicate (Z.to_nat E) (Block false (-1) (-1)) in
  let sets_arr := (λ i : nat, CSet (Z.of_nat i) blocks) <$> seq 0 (Z.to_nat n_sets) in
  Some (State n_sets E n_bits (lri_count st) (miss st) (hit st)
              (evictions st) (tag_index st) sets_arr).

(** ** The body of [parse_trace] (lines 259-351)

    The three loops walk the array of the selected set, [lines] blocks
    from [first_line], with [i] running up to [lines].  The embedding
    recurses on the array, which [cache_init] makes [lines] blocks long
    and nothing resizes ([inv] below keeps [lines] and the lengths
    together); [cur] is the part of the array from [current_line] on.
    [t] is [tag_index[0]], [c] is [lri_count]. *)

(** Lines 284-297: look for a valid block with the tag; the block hit
    is stamped.  [None] when the loop ends with [is_hit] false.  The
    comparison is between an [int] and an [unsigned int], so the stored
    tag is converted to [unsigned int]. *)
Fixpoint find_tag (t c : Z) (cur : list block) : option (list block) :=
  match cur with
  | [] => None
  | l :: cur' =>
      if (to_uint (tag l) =? t) && valid_bit l
      then Some (Block (valid_bit l) (tag l) c :: cur')
      else cons l <$> find_tag t c cur'
  end.

(** Lines 304-319: look for a block that is not valid and install the
    tag there.  [None] when the loop ends with [found_empty] false. *)
Fixpoint find_empty (t c : Z) (cur : list block) : option (list block) :=
  match cur with
  | [] => None
  | l :: cur' =>
      if negb (valid_bit l)
      then Some (Block true (to_int t) c :: cur')
      else cons l <$> find_empty t c cur'
  end.

(** Lines 326-333: [min_lri] is the position of the pointer of that
    name and [min_v] the lri it points to, [i] the loop counter. *)
Fixpoint find_min_lri (min_lri : nat) (min_v : Z) (i : nat) (cur : list block) : nat :=
  match cur with
  | [] => min_lri
  | l :: cur' =>
      if lri l <? min_v
      then find_min_lri i (lri l) (S i) cur'
      else find_min_lri min_lri min_v (S i) cur'
  end.

(** Lines 323-337: the eviction.  Writing through [min_lri] is outside
    the array when the set has no block. *)
Definition evict (t c : Z) (first_line : list block) : option (list block) :=
  match first_line with
  | [] => None
  | l0 :: rest =>
      let m := find_min_lri 0 (lri l0) 1 rest in
      l ← first_line !! m;
      Some (<[m := Block (valid_bit l) (to_int t) c]> first_line)
  end.

(** The globals after a run of the code: the counters [lri_count],
    [miss], [hit], [evictions] and the array of set [i]. *)
Definition store (st : state) (c m h e : Z) (i : nat) (cs : set) (bs : list block) : state :=
  State (sets st) (lines st) (block_bits st) c m h e (tag_index st)
        (<[i := CSet (index cs) bs]> (cache st)).

(** Lines 275-343, one run of the code after the label [start]. *)
Definition pass (st : state) : option state :=
  let t := (tag_index st).1 in
  let i := Z.to_nat (tag_index st).2 in
  cs ← cache st !! i;
  let first_line := arr_blocks cs in
  match find_tag t (lri_count st) first_line with
  | Some bs =>
      h ← incr (hit st);
      c ← incr (lri_count st);
      Some (store st c (miss st) h (evictions st) i cs bs)
  | None =>
      m ← incr (miss st);
      match find_empty t (lri_count st) first_line with
      | Some bs =>
          c ← incr (lri_count st);
          Some (store st c m (hit st) (evictions st) i cs bs)
      | None =>
          e ← incr (evictions st);
          bs ← evict t (lri_count st) first_line;
          c ← incr (lri_count st);
          Some (store st c m (hit st) e i cs bs)
      end
  end.

(** Lines 273 and 345-348: with [is_type_m] set the code jumps back to
    [start] once, with the flag cleared. *)
Definition start (is_type_m : bool) (st : state) : option state :=
  st1 ← pass st;
  if is_type_m then pass st1 else Some st1.

(** [trace->type == 2] *)
Definition is_modify (ty : trace_type) : bool :=
  match ty with MODIFY => true | _ => false end.

Fixpoint parse_trace (trace : list trace_line) (s b : Z) (st : state) : option state :=
  match trace with
  | [] => Some st
  | tl :: trace' =>
      let is_type_m := is_modify (type tl) in
      st1 ← parse_address (address tl) s b st;
      st2 ← start is_type_m st1;
      parse_trace trace' s b st2
  end.

(** ** [main] (lines 64-125)

    [s], [E], [b] are the values left by the option loop ([-1] for an
    option that is not given); [trace] is what [read_trace] returns,
    [None] when the file cannot be opened ([exit(0)] after the help
    text). *)

Inductive result :=
  | MissingArgument
  | NoTraceFile
  | Summary (hits misses evicts : Z).

(** The globals when [main] reaches [cache_init]: the counters are set
    to 0 at lines 74-75, the rest is zero-initialised. *)
Definition globals0 : state := State 0 0 0 0 0 0 0 (0, 0) [].

Definition main (argc s E b : Z) (trace : option (list trace_line)) : option result :=
  if argc =? 1 then Some MissingArgument
  else
    st ← cache_init s E b globals0;
    match trace with
    | None => Some NoTraceFile
    | Some tr =>
        st' ← parse_trace tr s b st;
        Some (Summary (hit st') (miss st') (evictions st'))
    end.

(** * Vocabulary of the properties *)

(** A block holds the requested tag: it is valid and its tag, read as
    an [unsigned int], is [t]. *)
Definition matches (t : Z) (l : block) : Prop :=
  valid_bit l = true ∧ to_uint (tag l) = t.

(** Block [j] with content [l] is the one the scan with [<] selects:
    every other block has a larger lri, or the same lri and a later
    position. *)
Definition first_min (bs : list block) (j : nat) (l : block) : Prop :=
  ∀ k l', bs !! k = Some l' → k ≠ j →
    lri l < lri l' ∨ (lri l = lri l' ∧ (j < k)%nat).

(** ** The replacement step as the specification words it

    [access_spec st o st'] follows the three-step algorithm of the
    specification: the request is the pair left in [tag_index]; the
    line touched takes the current value of [lri_count] as its recency
    and the counter moves on by one. *)

Inductive outcome := Hit | MissFilled | MissEvicted.

Definition req_tag (st : state) : Z := (tag_index st).1.
Definition req_set (st : state) : nat := Z.to_nat (tag_index st).2.

Inductive access_spec (st : state) : outcome → state → Prop :=
  | access_hit cs j l :
      cache st !! req_set st = Some cs →
      arr_blocks cs !! j = Some l →
      matches (req_tag st) l →
      (∀ k l', (k < j)%nat → arr_blocks cs !! k = Some l' → ¬ matches (req_tag st) l') →
      access_spec st Hit
        (store st (lri_count st + 1) (miss st) (hit st + 1) (evictions st)
           (req_set st) cs
           (<[j := Block (valid_bit l) (tag l) (lri_count st)]> (arr_blocks cs)))
  | access_fill cs j l :
      cache st !! req_set st = Some cs →
      (∀ k l', arr_blocks cs !! k = Some l' → ¬ matches (req_tag st) l') →
      arr_blocks cs !! j = Some l →
      valid_bit l = false →
      (∀ k l', (k < j)%nat → arr_blocks cs !! k = Some l' → valid_bit l' = true) →
      access_spec st MissFilled
        (store st (lri_count st + 1) (miss st + 1) (hit st) (evictions st)
           (req_set st) cs
           (<[j := Block true (to_int (req_tag st)) (lri_count st)]> (arr_blocks cs)))
  | access_evict cs j l :
      cache st !! req_set st = Some cs →
      (∀ k l', arr_blocks cs !! k = Some l' → ¬ matches (req_tag st) l') →
      (∀ k l', arr_blocks cs !! k = Some l' → valid_bit l' = true) →
      arr_blocks cs !! j = Some l →
      first_min (arr_blocks cs) j l →
      access_spec st MissEvicted
        (store st (lri_count st + 1) (miss st + 1) (hit st) (evictions st + 1)
           (req_set st) cs
           (<[j := Block (valid_bit l) (to_int (req_tag st)) (lri_count st)]> (arr_blocks cs))).

(** Counters that can take one more increment. *)
Definition room (st : state) : Prop :=
  lri_count st < INT_MAX ∧ miss st < INT_MAX ∧ hit st < INT_MAX ∧
  evictions st < INT_MAX.

(** Line [j] of set [i]. *)
Definition line_at (st : state) (i j : nat) : option block :=
  cs ← cache st !! i; arr_blocks cs !! j.

(** The shape of the cache is fixed. *)
Definition shape (n E : nat) (st : state) : Prop :=
  length (cache st) = n ∧
  ∀ i cs, cache st !! i = Some cs → length (arr_blocks cs) = E.

(** Every stamp is below the counter. *)
Definition stamps_below (st : state) : Prop :=
  ∀ i j l, line_at st i j = Some l → lri l < lri_count st.

(** No two valid lines of the cache hold the same recency. *)
Definition unique_recency (st : state) : Prop :=
  ∀ i j i' j' x y,
    line_at st i j = Some x → line_at st i' j' = Some y →
    valid_bit x = true → valid_bit y = true →
    lri x = lri y → i = i' ∧ j = j'.

(** No two valid lines of one set hold the same tag. *)
Definition unique_tags (st : state) : Prop :=
  ∀ i j j' x y,
    line_at st i j = Some x → line_at st i j' = Some y →
    valid_bit x = true → valid_bit y = true →
    tag x = tag y → j = j'.

(** ** Runs

    The points of a run of [parse_trace] are counted in accesses, the
    runs of the code after [start]: one per LOAD or STORE line, two per
    MODIFY line.  [access] is the work for one of them and [run] a
    sequence of them; [parse_trace_run] below shows that [parse_trace]
    is the run over [addresses]. *)

Definition access (a s b : Z) (st : state) : option state :=
  parse_address a s b st ≫= pass.

Fixpoint run (addrs : list Z) (s b : Z) (st : state) : option state :=
  match addrs with
  | [] => Some st
  | a :: addrs' => access a s b st ≫= run addrs' s b
  end.

Definition touches (tl : trace_line) : list Z :=
  if is_modify (type tl) then [address tl; address tl] else [address tl].

Definition addresses (tr : list trace_line) : list Z := tr ≫= touches.

(** A configuration the allocation and the address split are defined
    for, with at least one line per set. *)
Definition valid_config (s E b : Z) : Prop :=
  0 <= s <= 30 ∧ 1 <= E ∧ 0 <= b <= 30.

(** What holds after [k] accesses on a cache made by [cache_init]. *)
Definition inv (s E k : Z) (st : state) : Prop :=
  shape (Z.to_nat (2 ^ s)) (Z.to_nat E) st ∧
  lri_count st = k ∧ hit st + miss st = k ∧
  0 <= hit st ∧ 0 <= miss st ∧ 0 <= evictions st <= miss st ∧
  stamps_below st ∧ unique_recency st ∧ unique_tags st ∧
  sets st = 2 ^ s ∧ lines st = E.

(** The number of LOAD or STORE lines of a trace, and the number of its
    MODIFY lines. *)
Definition load_store_events (tr : list trace_line) : Z :=
  Z.of_nat (length (List.filter (λ tl, negb (is_modify (type tl))) tr)).

Definition modify_events (tr : list trace_line) : Z :=
  Z.of_nat (length (List.filter (λ tl, is_modify (type tl)) tr)).

(** A cache of one set with one line, not yet used, and a request for
    tag 0 in set 0. *)
Definition one_line : state :=
  State 1 1 1 0 0 0 0 (0, 0) [CSet 0 [Block false (-1) (-1)]].

(** * Further vocabulary *)

(** ** The engine *)

(** The tag and the set index of an address, as [parse_address] leaves
    them when its shifts are defined ([parse_address_Some]). *)
Definition tag_of (a s b : Z) : Z := to_uint (Z.shiftr a (s + b)).
Definition set_of (a s b : Z) : Z := to_uint (Z.land (Z.shiftr a b) (Z.ones s)).

(** [st'] has the sets and lines of [st]: the same three size globals,
    as many sets, and in each set the same [index] and as many blocks. *)
Definition same_shape (st st' : state) : Prop :=
  sets st' = sets st ∧ lines st' = lines st ∧ block_bits st' = block_bits st ∧
  length (cache st') = length (cache st) ∧
  ∀ i cs, cache st !! i = Some cs →
    ∃ cs', cache st' !! i = Some cs' ∧ index cs' = index cs ∧
           length (arr_blocks cs') = length (arr_blocks cs).

(** The number of valid blocks of an array, and of the whole cache. *)
Fixpoint valid_in (bs : list block) : Z :=
  match bs with
  | [] => 0
  | l :: bs' => Z.b2z (valid_bit l) + valid_in bs'
  end.

Fixpoint valid_sets (c : list set) : Z :=
  match c with
  | [] => 0
  | cs :: c' => valid_in (arr_blocks cs) + valid_sets c'
  end.

Definition valid_lines (st : state) : Z := valid_sets (cache st).

(** Valid lines stay valid from [st] to [st']. *)
Definition keeps_valid (st st' : state) : Prop :=
  ∀ i j x, line_at st i j = Some x → valid_bit x = true →
    ∃ y, line_at st' i j = Some y ∧ valid_bit y = true.

(** No two valid lines of one set hold tags that are equal as
    [unsigned int], the way the scan for a hit compares them. *)
Definition unique_utags (st : state) : Prop :=
  ∀ i j j' x y,
    line_at st i j = Some x → line_at st i j' = Some y →
    valid_bit x = true → valid_bit y = true →
    to_uint (tag x) = to_uint (tag y) → j = j'.

(** The line of set [i] that holds tag [t] is recent up to [T]: it is
    valid, and every other valid line of the set with a later stamp
    holds a tag of the list [T]. *)
Definition recent (T : list Z) (t : Z) (i : nat) (st : state) : Prop :=
  ∃ j x,
    line_at st i j = Some x ∧ valid_bit x = true ∧ to_uint (tag x) = t ∧
    ∀ j' y, j' ≠ j → line_at st i j' = Some y → valid_bit y = true →
            lri x < lri y → to_uint (tag y) ∈ T.

(** A cache of one set with two lines, not yet used. *)
Definition two_lines : state :=
  State 1 2 1 0 0 0 0 (0, 0)
        [CSet 0 [Block false (-1) (-1); Block false (-1) (-1)]].

(** * The trace reader

    [read_trace] (lines 169-241) and the library calls it makes, which
    are embedded as ISO C describes them, in the "C" locale.  A file is
    the list of its characters. *)

Definition NUL : ascii := "000"%char.
Definition newline : ascii := "010"%char.

(** [fgets(str_line, n + 1, fp)]: the characters read, at most [n] and
    none after a newline, and the rest of the file.  The call returns
    the null pointer when the file is at its end. *)
Fixpoint fgets (n : nat) (fp : list ascii) : list ascii * list ascii :=
  match n, fp with
  | S n', c :: fp' =>
      if Ascii.eqb c newline then ([c], fp')
      else let '(l, rest) := fgets n' fp' in (c :: l, rest)
  | _, _ => ([], fp)
  end.

(** The string in a buffer: the characters before the first null. *)
Fixpoint c_string (buf : list ascii) : list ascii :=
  match buf with
  | [] => []
  | c :: buf' => if Ascii.eqb c NUL then [] else c :: c_string buf'
  end.

(** [strtok] with a separator string of one character [d], on the
    string the search starts from: past the leading separators, the
    token runs to the next separator, which is overwritten by a null,
    and the search continues after it; with no token the call returns
    the null pointer.  The result is the token and the string the next
    search starts from (empty when the token ends the string). *)
Fixpoint skip_char (d : ascii) (str : list ascii) : list ascii :=
  match str with
  | c :: str' => if Ascii.eqb c d then skip_char d str' else str
  | [] => []
  end.

Fixpoint until_char (d : ascii) (str : list ascii) : list ascii * list ascii :=
  match str with
  | c :: str' =>
      if Ascii.eqb c d then ([], str')
      else let '(token, rest) := until_char d str' in (c :: token, rest)
  | [] => ([], [])
  end.

Definition strtok (d : ascii) (str : list ascii) : option (list ascii * list ascii) :=
  match skip_char d str with
  | [] => None
  | str' => Some (until_char d str')
  end.

(** [strtoul(token, &ptr, 16)]: white space, an optional sign, an
    optional [0x] or [0X] in front of a digit, then the digits; the
    value is [ULONG_MAX] when it does not fit and is negated as an
    [unsigned long] after a minus sign; without a digit it is 0. *)
Definition isspace (c : ascii) : bool :=
  let n := N_of_ascii c in (n =? 32)%N || ((9 <=? n)%N && (n <=? 13)%N).

Definition hex_digit (c : ascii) : option Z :=
  let n := Z.of_N (N_of_ascii c) in
  if (48 <=? n) && (n <=? 57) then Some (n - 48)
  else if (97 <=? n) && (n <=? 102) then Some (n - 87)
  else if (65 <=? n) && (n <=? 70) then Some (n - 55)
  else None.

Fixpoint skip_space (str : list ascii) : list ascii :=
  match str with
  | c :: str' => if isspace c then skip_space str' else str
  | [] => []
  end.

Fixpoint hex_value (acc : Z) (str : list ascii) : Z :=
  match str with
  | c :: str' =>
      match hex_digit c with
      | Some d => hex_value (16 * acc + d) str'
      | None => acc
      end
  | [] => acc
  end.

Definition ULONG_MAX : Z := 2 ^ 64 - 1.

Definition strtoul_16 (str : list ascii) : Z :=
  let str1 := skip_space str in
  let '(minus, str2) :=
    match str1 with
    | c :: r => if Ascii.eqb c "-" then (true, r)
                else if Ascii.eqb c "+" then (false, r)
                else (false, str1)
    | [] => (false, str1)
    end in
  let str3 :=
    match str2 with
    | z :: x :: d :: r =>
        if Ascii.eqb z "0" && (Ascii.eqb x "x" || Ascii.eqb x "X")
           && bool_decide (is_Some (hex_digit d))
        then d :: r else str2
    | _ => str2
    end in
  let v := hex_value 0 str3 in
  if ULONG_MAX <? v then ULONG_MAX
  else if minus then to_ulong (- v) else v.

(** Lines 213-221: the kind for the character [str_line[1]]. *)
Definition kind_of (type : ascii) : option trace_type :=
  if Ascii.eqb type "L" then Some LOAD
  else if Ascii.eqb type "S" then Some STORE
  else if Ascii.eqb type "M" then Some MODIFY
  else None.

(** Lines 205-228, the body of the loop for the characters [str_line]
    that [fgets] read: the line added to the trace, if any.
    [str_line[1]] is the null that ends the string when one character
    was read.  When the first [strtok] finds no token the second one
    finds none either.  [token] is then the null pointer, which
    [strtoul] must not get. *)
Definition read_line (str_line : list ascii) : option (option trace_line) :=
  let type := nth 1 str_line NUL in
  let first := strtok " " (c_string str_line) in
  let token := first ≫= λ '(_, saved), fst <$> strtok "," saved in
  match kind_of type with
  | None => Some None
  | Some ty =>
      match token with
      | None => None
      | Some token => Some (Some (TraceLine ty (strtoul_16 token)))
      end
  end.

(** Lines 204-229, the loop [while (fgets(str_line, line_len + 2, fp))]
    with [line_len = 15].  [fuel] bounds the number of calls of [fgets];
    the size of the file is enough ([read_lines_fuel]). *)
Fixpoint read_lines (fuel : nat) (fp : list ascii) : option (list trace_line) :=
  match fp, fuel with
  | [], _ => Some []
  | _ :: _, O => None
  | _ :: _, S fuel' =>
      let '(str_line, fp') := fgets 16 fp in
      line ← read_line str_line;
      trace ← read_lines fuel' fp';
      Some (match line with Some tl => tl :: trace | None => trace end)
  end.

(** [read_trace]: [None] for the file when [fopen] fails, and then the
    result is [Some None], the exit after the help text.  The array
    [trace] has [size] entries, the size of the file in characters; the
    lines read and the end mark after them must fit. *)
Definition read_trace (tracefile : option (list ascii)) : option (option (list trace_line)) :=
  match tracefile with
  | None => Some None
  | Some fp =>
      let size := length fp in
      trace ← read_lines size fp;
      if (length trace <? size)%nat then Some (Some trace) else None
  end.

(** The program on the arguments left by the option loop and the file
    named by [-t]: [main] with the trace that [read_trace] returns,
    read after [cache_init] has run. *)
Definition csim (argc s E b : Z) (tracefile : option (list ascii)) : option result :=
  if argc =? 1 then main argc s E b None
  else
    _ ← cache_init s E b globals0;
    trace ← read_trace tracefile;
    main argc s E b trace.

(** ** Trace files in the format of Valgrind's Lackey

    A line is ["I  address,size"] for an instruction and
    [" L address,size"], [" S address,size"] or [" M address,size"] for
    a data access, the address in lower-case hexadecimal. *)

Definition hex_char (d : Z) : ascii :=
  ascii_of_N (Z.to_N (if d <? 10 then 48 + d else 87 + d)).

(** The [n] lowest hexadecimal digits of [a], the highest first. *)
Fixpoint hex_digits (n : nat) (a : Z) : list ascii :=
  match n with
  | O => []
  | S n' => hex_char ((a / 16 ^ Z.of_nat n') mod 16) :: hex_digits n' a
  end.

Definition kind_char (ty : trace_type) : ascii :=
  match ty with LOAD => "L" | STORE => "S" | MODIFY => "M" end%char.

Definition is_digit (c : ascii) : Prop :=
  48 <= Z.of_N (N_of_ascii c) <= 57.

Inductive lackey :=
  | Instr (n : nat) (a : Z) (size : list ascii)
  | Data (ty : trace_type) (n : nat) (a : Z) (size : list ascii).

Definition line_text (c0 k : ascii) (n : nat) (a : Z) (size : list ascii) : list ascii :=
  c0 :: k :: " "%char :: hex_digits n a ++ ","%char :: size ++ [newline].

Definition print_line (l : lackey) : list ascii :=
  match l with
  | Instr n a size => line_text "I" " " n a size
  | Data ty n a size => line_text " " (kind_char ty) n a size
  end.

Definition print_file (ls : list lackey) : list ascii := ls ≫= print_line.

(** The address is written with [n] digits, 1 to 13, and the size with
    at most 14 decimal digits. *)
Definition well_formed (l : lackey) : Prop :=
  match l with
  | Instr n a size | Data _ n a size =>
      (1 <= n <= 13)%nat ∧ 0 <= a < 16 ^ Z.of_nat n ∧
      Forall is_digit size ∧ (length size <= 14)%nat
  end.

Definition event_of (l : lackey) : option trace_line :=
  match l with
  | Instr _ _ _ => None
  | Data ty _ a _ => Some (TraceLine ty a)
  end.

Definition events (ls : list lackey) : list trace_line := omap event_of ls.

(** * Proofs *)

(** ** Facts on the integer operations *)

Lemma to_uint_range z : 0 <= to_uint z < 2 ^ 32.
Proof. unfold to_uint. apply Z.mod_pos_bound. lia. Qed.

Lemma to_uint_to_int u : 0 <= u < 2 ^ 32 -> to_uint (to_int u) = u.
Proof.
  intros Hu. unfold to_uint, to_int.
  destruct (Z.ltb_spec u (2 ^ 31)).
  - apply Z.mod_small. lia.
  - replace (u - 2 ^ 32) with (u + (-1) * 2 ^ 32) by lia.
    rewrite Z.mod_add by lia. apply Z.mod_small. lia.
Qed.

Lemma shr_ul_Some x n : 0 <= n < 64 -> shr_ul x n = Some (Z.shiftr x n).
Proof.
  intros Hn. unfold shr_ul.
  destruct (Z.leb_spec 0 n), (Z.ltb_spec n 64); simpl; first [done | lia].
Qed.

Lemma shr_ul_None x n : 64 <= n -> shr_ul x n = None.
Proof.
  intros Hn. unfold shr_ul.
  destruct (Z.leb_spec 0 n), (Z.ltb_spec n 64); simpl; first [done | lia].
Qed.

Lemma shl_ul_Some x n : 0 <= n < 64 -> shl_ul x n = Some (to_ulong (Z.shiftl x n)).
Proof.
  intros Hn. unfold shl_ul.
  destruct (Z.leb_spec 0 n), (Z.ltb_spec n 64); simpl; first [done | lia].
Qed.

Lemma incr_Some x : x < INT_MAX -> incr x = Some (x + 1).
Proof. intros Hx. unfold incr. destruct (Z.ltb_spec x INT_MAX); [done | lia]. Qed.

Lemma incr_inv x y : incr x = Some y -> y = x + 1 /\ x < INT_MAX.
Proof.
  unfold incr. destruct (Z.ltb_spec x INT_MAX); [|done].
  intros [= <-]. done.
Qed.

(** The mask [~(~0ul << s)] has exactly the low [s] bits set. *)
Lemma mask_ones s :
  0 <= s < 64 -> not_ul (to_ulong (Z.shiftl (not_ul 0) s)) = Z.ones s.
Proof.
  intros Hs. unfold not_ul, to_ulong.
  change (Z.lnot 0 mod 2 ^ 64) with (2 ^ 64 - 1).
  rewrite Z.shiftl_mul_pow2, Z.ones_equiv by lia.
  assert (Hp : 0 < 2 ^ s <= 2 ^ 63).
  { split; [apply Z.pow_pos_nonneg; lia | apply Z.pow_le_mono_r; lia]. }
  assert (Hm : ((2 ^ 64 - 1) * 2 ^ s) mod 2 ^ 64 = 2 ^ 64 - 2 ^ s).
  { symmetry. apply (Z.mod_unique _ _ (2 ^ s - 1)); lia. }
  rewrite Hm. unfold Z.lnot.
  symmetry. apply (Z.mod_unique _ _ (-1)); lia.
Qed.

(** What [parse_address] leaves in [tag_index] when its shifts are
    defined. *)
Lemma parse_address_Some a s b st :
  0 <= s -> 0 <= b -> s + b < 64 ->
  parse_address a s b st =
    Some (set_tag_index st
            (to_uint (Z.shiftr a (s + b)),
             to_uint (Z.land (Z.shiftr a b) (Z.ones s)))).
Proof.
  intros Hs Hb Hsb. unfold parse_address.
  rewrite !shr_ul_Some, shl_ul_Some by lia. simpl.
  by rewrite mask_ones by lia.
Qed.

(** ** The three loops *)

Lemma matches_test t l :
  (to_uint (tag l) =? t) && valid_bit l = true ↔ matches t l.
Proof.
  unfold matches. rewrite andb_true_iff, Z.eqb_eq. tauto.
Qed.

Lemma find_tag_None t c bs :
  find_tag t c bs = None ↔ (∀ k l, bs !! k = Some l → ¬ matches t l).
Proof.
  induction bs as [|x bs IH]; simpl.
  - split; [intros _ k l Hk; by destruct k | done].
  - destruct ((to_uint (tag x) =? t) && valid_bit x) eqn:Hx.
    + split; [done|]. intros H. exfalso.
      apply (H 0%nat x); [done|]. by apply matches_test.
    + rewrite fmap_None, IH. split.
      * intros H [|k] l Hk; simpl in Hk.
        -- injection Hk as <-. rewrite <- matches_test. by rewrite Hx.
        -- by eapply H.
      * intros H k l Hk. by apply (H (S k) l).
Qed.

Lemma find_tag_Some t c bs bs' :
  find_tag t c bs = Some bs' →
  ∃ j l, bs !! j = Some l ∧ matches t l ∧
         (∀ k l', (k < j)%nat → bs !! k = Some l' → ¬ matches t l') ∧
         bs' = <[j := Block (valid_bit l) (tag l) c]> bs.
Proof.
  revert bs'. induction bs as [|x bs IH]; simpl; intros bs' H; [done|].
  destruct ((to_uint (tag x) =? t) && valid_bit x) eqn:Hx.
  - injection H as <-. exists 0%nat, x. split_and!; try done.
    + by apply matches_test.
    + intros k l' Hk. lia.
  - apply fmap_Some in H as (bs0 & Hbs0 & ->).
    destruct (IH _ Hbs0) as (j & l & Hj & Hm & Hfirst & ->).
    exists (S j), l. split_and!; try done.
    intros [|k] l' Hk Hl'; simpl in Hl'.
    + injection Hl' as <-. rewrite <- matches_test. by rewrite Hx.
    + apply (Hfirst k); [lia | done].
Qed.

Lemma find_empty_None t c bs :
  find_empty t c bs = None ↔ (∀ k l, bs !! k = Some l → valid_bit l = true).
Proof.
  induction bs as [|x bs IH]; simpl.
  - split; [intros _ k l Hk; by destruct k | done].
  - destruct (valid_bit x) eqn:Hx; simpl.
    + rewrite fmap_None, IH. split.
      * intros H [|k] l Hk; simpl in Hk; [by injection Hk as <- | by eapply H].
      * intros H k l Hk. by apply (H (S k) l).
    + split; [done|]. intros H. specialize (H 0%nat x eq_refl). congruence.
Qed.

Lemma find_empty_Some t c bs bs' :
  find_empty t c bs = Some bs' →
  ∃ j l, bs !! j = Some l ∧ valid_bit l = false ∧
         (∀ k l', (k < j)%nat → bs !! k = Some l' → valid_bit l' = true) ∧
         bs' = <[j := Block true (to_int t) c]> bs.
Proof.
  revert bs'. induction bs as [|x bs IH]; simpl; intros bs' H; [done|].
  destruct (valid_bit x) eqn:Hx; simpl in H.
  - apply fmap_Some in H as (bs0 & Hbs0 & ->).
    destruct (IH _ Hbs0) as (j & l & Hj & Hm & Hfirst & ->).
    exists (S j), l. split_and!; try done.
    intros [|k] l' Hk Hl'; simpl in Hl'.
    + by injection Hl' as <-.
    + apply (Hfirst k); [lia | done].
  - injection H as <-. exists 0%nat, x. split_and!; try done.
    intros k l' Hk. lia.
Qed.

Lemma find_min_lri_spec cur :
  ∀ pre m lm,
    pre !! m = Some lm → first_min pre m lm →
    ∃ l, (pre ++ cur) !! find_min_lri m (lri lm) (length pre) cur = Some l ∧
         first_min (pre ++ cur) (find_min_lri m (lri lm) (length pre) cur) l.
Proof.
  induction cur as [|x cur IH]; intros pre m lm Hm Hmin; simpl.
  - rewrite app_nil_r. eauto.
  - assert (Hlen : (m < length pre)%nat) by by eapply lookup_lt_Some.
    replace (pre ++ x :: cur) with ((pre ++ [x]) ++ cur) by by rewrite <- app_assoc.
    replace (S (length pre)) with (length (pre ++ [x])) by (rewrite length_app; simpl; lia).
    destruct (Z.ltb_spec (lri x) (lri lm)) as [Hlt|Hge].
    + replace (length pre) with (length pre + 0)%nat at 1 3 by lia.
      rewrite length_app. simpl.
      replace (length pre + 1)%nat with (length (pre ++ [x])) by (rewrite length_app; simpl; lia).
      replace (length pre + 0)%nat with (length pre) by lia.
      apply IH.
      * by rewrite lookup_app_r, Nat.sub_diag by lia.
      * intros k l' Hk Hne.
        assert (Hk' : (k < length pre)%nat).
        { apply lookup_lt_Some in Hk. rewrite length_app in Hk. simpl in Hk. lia. }
        rewrite lookup_app_l in Hk by done. left.
        destruct (decide (k = m)) as [->|Hkm]; [naive_solver lia|].
        destruct (Hmin k l' Hk Hkm); lia.
    + apply IH.
      * by rewrite lookup_app_l by done.
      * intros k l' Hk Hne.
        destruct (decide (k < length pre)%nat) as [Hk'|Hk'].
        -- rewrite lookup_app_l in Hk by done. by apply Hmin.
        -- rewrite lookup_app_r in Hk by lia.
           destruct (k - length pre)%nat as [|n] eqn:Hn; simpl in Hk; [|by destruct n].
           injection Hk as <-. lia.
Qed.

Lemma evict_Some t c bs :
  bs ≠ [] →
  ∃ j l, bs !! j = Some l ∧ first_min bs j l ∧
         evict t c bs = Some (<[j := Block (valid_bit l) (to_int t) c]> bs).
Proof.
  destruct bs as [|l0 rest]; [done|]. intros _.
  destruct (find_min_lri_spec rest [l0] 0%nat l0) as (l & Hl & Hmin); [done| |].
  { intros [|k] l' Hk Hne; [done | by destruct k]. }
  simpl in Hl, Hmin. exists (find_min_lri 0 (lri l0) 1 rest), l.
  split_and!; try done.
  unfold evict. by rewrite Hl.
Qed.

Lemma pass_access_spec st st' :
  pass st = Some st' → ∃ o, access_spec st o st'.
Proof.
  unfold pass. fold (req_set st) (req_tag st).
  destruct (cache st !! req_set st) as [cs|] eqn:Hcs; simpl; [|done].
  destruct (find_tag _ _ _) as [bs|] eqn:Hhit.
  - destruct (incr (hit st)) as [h|] eqn:Hh; simpl; [|done].
    destruct (incr (lri_count st)) as [c|] eqn:Hc; simpl; [|done].
    intros [= <-].
    apply incr_inv in Hh as [-> _]. apply incr_inv in Hc as [-> _].
    apply find_tag_Some in Hhit as (j & l & Hj & Hm & Hfirst & ->).
    exists Hit. by eapply access_hit.
  - rewrite find_tag_None in Hhit.
    destruct (incr (miss st)) as [m|] eqn:Hm; simpl; [|done].
    apply incr_inv in Hm as [-> _].
    destruct (find_empty _ _ _) as [bs|] eqn:Hempty.
    + destruct (incr (lri_count st)) as [c|] eqn:Hc; simpl; [|done].
      intros [= <-]. apply incr_inv in Hc as [-> _].
      apply find_empty_Some in Hempty as (j & l & Hj & Hv & Hfirst & ->).
      exists MissFilled. by eapply access_fill.
    + rewrite find_empty_None in Hempty.
      destruct (incr (evictions st)) as [e|] eqn:He; simpl; [|done].
      apply incr_inv in He as [-> _].
      destruct (decide (arr_blocks cs = [])) as [Hnil|Hne].
      { by rewrite Hnil. }
      destruct (evict_Some (req_tag st) (lri_count st) _ Hne)
        as (j & l & Hj & Hmin & ->). simpl.
      destruct (incr (lri_count st)) as [c|] eqn:Hc; simpl; [|done].
      intros [= <-]. apply incr_inv in Hc as [-> _].
      exists MissEvicted. by eapply access_evict.
Qed.

Lemma pass_defined st cs :
  cache st !! req_set st = Some cs → arr_blocks cs ≠ [] → room st →
  is_Some (pass st).
Proof.
  intros Hcs Hne (Hc & Hm & Hh & He).
  unfold pass. fold (req_set st) (req_tag st). rewrite Hcs. simpl.
  rewrite (incr_Some _ Hc), (incr_Some _ Hm), (incr_Some _ Hh), (incr_Some _ He).
  destruct (find_tag _ _ _); simpl; [done|].
  destruct (find_empty _ _ _); simpl; [done|].
  destruct (evict_Some (req_tag st) (lri_count st) _ Hne) as (j & l & _ & _ & ->).
  done.
Qed.

(** If a block of the set is strictly below all others, it is the one
    [first_min] designates. *)
Lemma first_min_strict bs j l m lm :
  bs !! j = Some l → first_min bs j l →
  bs !! m = Some lm →
  (∀ k l', bs !! k = Some l' → k ≠ m → lri lm < lri l') →
  j = m.
Proof.
  intros Hj Hmin Hm Hstrict.
  destruct (decide (j = m)) as [|Hne]; [done|]. exfalso.
  assert (lri lm < lri l) by by eapply Hstrict.
  destruct (Hmin m lm Hm) as [?|[? _]]; [done|lia..].
Qed.

(** With pairwise distinct recencies the victim is strictly the
    minimum. *)
Lemma first_min_distinct bs j l :
  bs !! j = Some l → first_min bs j l →
  (∀ k k' x y, bs !! k = Some x → bs !! k' = Some y → lri x = lri y → k = k') →
  ∀ k l', bs !! k = Some l' → k ≠ j → lri l < lri l'.
Proof.
  intros Hj Hmin Hdistinct k l' Hk Hne.
  destruct (Hmin k l' Hk Hne) as [?|[Heq _]]; [done|].
  by specialize (Hdistinct _ _ _ _ Hj Hk Heq).
Qed.

(** C1. Every run of the code after [start] is one step of the
    three-step algorithm: a hit on the first valid line with the tag
    (hits + 1, line restamped); else a fill of the first line that is
    not valid (misses + 1; tag, valid and recency set); else an eviction
    (misses + 1, evictions + 1) of the line selected by the scan with
    [<], whose tag and recency are overwritten and whose valid bit
    stays; a line with the strictly minimum recency of the set is the
    one overwritten.  The step is defined when the set exists, has a
    line, and no counter is at [INT_MAX]. *)
Theorem C1_pass_follows_algorithm st cs :
  cache st !! req_set st = Some cs → arr_blocks cs ≠ [] → room st →
  ∃ o st',
    pass st = Some st' ∧ access_spec st o st' ∧
    (o = MissEvicted →
     ∀ m lm,
       arr_blocks cs !! m = Some lm →
       (∀ k l', arr_blocks cs !! k = Some l' → k ≠ m → lri lm < lri l') →
       cache st' =
         <[req_set st :=
             CSet (index cs)
               (<[m := Block true (to_int (req_tag st)) (lri_count st)]>
                  (arr_blocks cs))]> (cache st)).
Proof.
  intros Hcs Hne Hroom.
  destruct (pass_defined st cs Hcs Hne Hroom) as [st' Hst'].
  destruct (pass_access_spec st st' Hst') as [o Ho].
  exists o, st'. split_and!; try done.
  intros -> m lm Hm Hstrict.
  inversion Ho as [| |cs' j l Hcs' Hnohit Hfull Hj Hmin]; subst.
  assert (cs' = cs) as -> by congruence.
  assert (j = m) as -> by by eapply first_min_strict.
  assert (l = lm) as -> by congruence.
  simpl. by rewrite (Hfull _ _ Hm).
Qed.

(** ** Lines of the cache and the effect of a step on them *)

Lemma line_at_store st c m h e i cs j new i' j' :
  cache st !! i = Some cs → (j < length (arr_blocks cs))%nat →
  line_at (store st c m h e i cs (<[j := new]> (arr_blocks cs))) i' j' =
    if decide (i' = i ∧ j' = j) then Some new else line_at st i' j'.
Proof.
  intros Hcs Hj. unfold line_at, store. simpl.
  assert (Hi : (i < length (cache st))%nat) by by eapply lookup_lt_Some.
  destruct (decide (i' = i)) as [->|Hne].
  - rewrite list_lookup_insert_eq by done. simpl. rewrite Hcs. simpl.
    destruct (decide (j' = j)) as [->|Hnej].
    + rewrite list_lookup_insert_eq by done. by rewrite decide_True.
    + rewrite list_lookup_insert_ne by done. rewrite decide_False; [done | intros [? ?]; congruence].
  - rewrite list_lookup_insert_ne by done. rewrite decide_False; [done | intros [? ?]; congruence].
Qed.

(** One step rewrites exactly one line, in the requested set.  The line
    written is valid, carries the old value of [lri_count] and the
    requested tag; either it kept the tag of a valid line (hit), or no
    valid line of the set had that tag. *)
Lemma access_touch st o st' :
  access_spec st o st' → 0 <= req_tag st < 2 ^ 32 →
  ∃ j old new,
    line_at st (req_set st) j = Some old ∧
    (∀ i' j', line_at st' i' j' =
       if decide (i' = req_set st ∧ j' = j) then Some new else line_at st i' j') ∧
    valid_bit new = true ∧ lri new = lri_count st ∧
    to_uint (tag new) = req_tag st ∧
    ((valid_bit old = true ∧ tag new = tag old) ∨
     (∀ j' l', line_at st (req_set st) j' = Some l' →
               valid_bit l' = true → tag l' ≠ tag new)).
Proof.
  intros Hacc Ht.
  inversion Hacc as [cs j l Hcs Hj [Hv Htag] Hfirst
                    |cs j l Hcs Hnohit Hj Hv Hfirst
                    |cs j l Hcs Hnohit Hfull Hj Hmin]; subst.
  - exists j, l, (Block (valid_bit l) (tag l) (lri_count st)).
    split_and!; simpl; try done.
    + unfold line_at. by rewrite Hcs.
    + intros i' j'. apply line_at_store; [done | by eapply lookup_lt_Some].
    + by left.
  - exists j, l, (Block true (to_int (req_tag st)) (lri_count st)).
    split_and!; simpl; try done.
    + unfold line_at. by rewrite Hcs.
    + intros i' j'. apply line_at_store; [done | by eapply lookup_lt_Some].
    + by apply to_uint_to_int.
    + right. intros j' l' Hl' Hv' Heq.
      unfold line_at in Hl'. rewrite Hcs in Hl'. simpl in Hl'.
      apply (Hnohit j' l' Hl'). split; [done|].
      rewrite Heq. by apply to_uint_to_int.
  - exists j, l, (Block (valid_bit l) (to_int (req_tag st)) (lri_count st)).
    split_and!; simpl; try done.
    + unfold line_at. by rewrite Hcs.
    + intros i' j'. apply line_at_store; [done | by eapply lookup_lt_Some].
    + by eapply Hfull.
    + by apply to_uint_to_int.
    + right. intros j' l' Hl' Hv' Heq.
      unfold line_at in Hl'. rewrite Hcs in Hl'. simpl in Hl'.
      apply (Hnohit j' l' Hl'). split; [done|].
      rewrite Heq. by apply to_uint_to_int.
Qed.

(** The counters and the other globals across one step. *)
Lemma access_counters st o st' :
  access_spec st o st' →
  lri_count st' = lri_count st + 1 ∧
  hit st' + miss st' = hit st + miss st + 1 ∧
  hit st <= hit st' ∧ miss st <= miss st' ∧
  0 <= evictions st' - evictions st <= miss st' - miss st ∧
  tag_index st' = tag_index st ∧
  sets st' = sets st ∧ lines st' = lines st ∧ block_bits st' = block_bits st.
Proof. intros Hacc. inversion Hacc; subst; simpl; split_and!; lia || done. Qed.

Lemma access_shape n E st o st' :
  access_spec st o st' → shape n E st → shape n E st'.
Proof.
  intros Hacc [Hlen Hsets].
  assert (Hstore : ∀ c m h e cs j new,
    cache st !! req_set st = Some cs →
    shape n E (store st c m h e (req_set st) cs (<[j := new]> (arr_blocks cs)))).
  { intros c m h e cs j new Hcs. split; simpl.
    - by rewrite length_insert.
    - intros i cs' Hi.
      destruct (decide (i = req_set st)) as [->|Hne].
      + rewrite list_lookup_insert_eq in Hi by by eapply lookup_lt_Some.
        injection Hi as <-. simpl. rewrite length_insert. by eapply Hsets.
      + rewrite list_lookup_insert_ne in Hi by done. by eapply Hsets. }
  inversion Hacc; subst; by apply Hstore.
Qed.

(** ** Invariants of a step *)

Lemma stamps_below_step st o st' :
  access_spec st o st' → 0 <= req_tag st < 2 ^ 32 →
  stamps_below st → stamps_below st'.
Proof.
  intros Hacc Ht Hbelow i j l Hl.
  destruct (access_touch _ _ _ Hacc Ht)
    as (j0 & old & new & Hold & Hnew & Hv & Hlri & _).
  destruct (access_counters _ _ _ Hacc) as (-> & _).
  rewrite Hnew in Hl. destruct (decide _) as [_|_].
  - injection Hl as <-. lia.
  - specialize (Hbelow _ _ _ Hl). lia.
Qed.

Lemma unique_recency_step st o st' :
  access_spec st o st' → 0 <= req_tag st < 2 ^ 32 →
  stamps_below st → unique_recency st → unique_recency st'.
Proof.
  intros Hacc Ht Hbelow Huniq i j i' j' x y Hx Hy Hvx Hvy Heq.
  destruct (access_touch _ _ _ Hacc Ht)
    as (j0 & old & new & Hold & Hnew & Hv & Hlri & _).
  rewrite Hnew in Hx, Hy.
  destruct (decide (i = _ ∧ j = _)) as [[-> ->]|_],
           (decide (i' = _ ∧ j' = _)) as [[-> ->]|_]; [done|..].
  - injection Hx as <-. specialize (Hbelow _ _ _ Hy). lia.
  - injection Hy as <-. specialize (Hbelow _ _ _ Hx). lia.
  - by eapply Huniq.
Qed.

Lemma unique_tags_step st o st' :
  access_spec st o st' → 0 <= req_tag st < 2 ^ 32 →
  unique_tags st → unique_tags st'.
Proof.
  intros Hacc Ht Huniq i j j' x y Hx Hy Hvx Hvy Heq.
  destruct (access_touch _ _ _ Hacc Ht)
    as (j0 & old & new & Hold & Hnew & Hv & Hlri & _ & Hcase).
  rewrite Hnew in Hx, Hy.
  destruct (decide (i = req_set st ∧ j = j0)) as [[Hi Hj]|Hn1],
           (decide (i = req_set st ∧ j' = j0)) as [[Hi' Hj']|Hn2]; subst.
  - done.
  - injection Hx as <-. destruct Hcase as [[Hvo Hto]|Hfresh].
    + symmetry. eapply (Huniq _ j' j0 y old); try done. congruence.
    + exfalso. by eapply (Hfresh j' y).
  - injection Hy as <-. destruct Hcase as [[Hvo Hto]|Hfresh].
    + eapply (Huniq _ j j0 x old); try done. congruence.
    + exfalso. by eapply (Hfresh j x).
  - by eapply Huniq.
Qed.

Lemma shl_int_1_Some n : 0 <= n <= 30 → shl_int_1 n = Some (2 ^ n).
Proof.
  intros Hn. unfold shl_int_1.
  destruct (Z.leb_spec 0 n), (Z.ltb_spec n 31); simpl; try lia.
  by rewrite Z.shiftl_1_l.
Qed.

Lemma cache_init_Some s E b st :
  0 <= s <= 30 → 0 <= b <= 30 →
  cache_init s E b st =
    Some (State (2 ^ s) E (2 ^ b) (lri_count st) (miss st) (hit st)
            (evictions st) (tag_index st)
            ((λ i : nat, CSet (Z.of_nat i)
                           (replicate (Z.to_nat E) (Block false (-1) (-1))))
               <$> seq 0 (Z.to_nat (2 ^ s)))).
Proof.
  intros Hs Hb. unfold cache_init.
  by rewrite !shl_int_1_Some by done.
Qed.

Lemma line_at_init s E b st st0 i j l :
  cache_init s E b st = Some st0 → line_at st0 i j = Some l →
  l = Block false (-1) (-1).
Proof.
  unfold cache_init. intros Hinit Hl.
  destruct (shl_int_1 s) as [n|]; simpl in Hinit; [|done].
  destruct (shl_int_1 b) as [m|]; simpl in Hinit; [|done].
  injection Hinit as <-. unfold line_at in Hl. simpl in Hl.
  rewrite list_lookup_fmap in Hl.
  destruct (seq 0 (Z.to_nat n) !! i); simpl in Hl; [|done].
  by apply lookup_replicate in Hl as [-> _].
Qed.

Lemma inv_init s E b :
  valid_config s E b →
  ∃ st0, cache_init s E b globals0 = Some st0 ∧ inv s E 0 st0.
Proof.
  intros (Hs & HE & Hb). eexists. split; [by apply (cache_init_Some s E b globals0)|].
  assert (Hline : ∀ i j l,
    line_at (State (2 ^ s) E (2 ^ b) 0 0 0 0 (0, 0)
               ((λ i : nat, CSet (Z.of_nat i)
                   (replicate (Z.to_nat E) (Block false (-1) (-1))))
                  <$> seq 0 (Z.to_nat (2 ^ s)))) i j = Some l →
    l = Block false (-1) (-1)).
  { intros i j l. eapply line_at_init. by apply (cache_init_Some s E b globals0). }
  unfold inv. simpl. split_and!; try lia.
  - split; simpl.
    + by rewrite length_fmap, length_seq.
    + intros i cs Hi. rewrite list_lookup_fmap in Hi.
      apply fmap_Some in Hi as (n & _ & ->). simpl. by rewrite length_replicate.
  - intros i j l Hl. rewrite (Hline _ _ _ Hl). simpl. lia.
  - intros i j i' j' x y Hx Hy Hvx. by rewrite (Hline _ _ _ Hx) in Hvx.
  - intros i j j' x y Hx Hy Hvx. by rewrite (Hline _ _ _ Hx) in Hvx.
Qed.

Lemma set_index_bound x s :
  0 <= s <= 30 → 0 <= to_uint (Z.land x (Z.ones s)) < 2 ^ s.
Proof.
  intros Hs. rewrite Z.land_ones by lia. unfold to_uint.
  assert (0 < 2 ^ s) by (apply Z.pow_pos_nonneg; lia).
  assert (2 ^ s <= 2 ^ 30) by (apply Z.pow_le_mono_r; lia).
  pose proof (Z.mod_pos_bound x (2 ^ s)).
  rewrite Z.mod_small; lia.
Qed.

(** One access from a state of the invariant: it is defined, it is a
    step of [access_spec] from the state with the request in
    [tag_index], and the invariant holds again. *)
Lemma inv_access s E b k a st :
  valid_config s E b → inv s E k st → k < INT_MAX →
  ∃ st1 o st',
    parse_address a s b st = Some st1 ∧ cache st1 = cache st ∧
    lri_count st1 = lri_count st ∧ 0 <= req_tag st1 < 2 ^ 32 ∧
    pass st1 = Some st' ∧ access_spec st1 o st' ∧
    access a s b st = Some st' ∧ inv s E (k + 1) st'.
Proof.
  intros (Hs & HE & Hb)
    ([Hlen Hsets] & Hc & Hhm & Hh & Hm & He & Hbelow & Hur & Hut & Hn & Hl) Hk.
  unfold access. rewrite parse_address_Some by lia. simpl.
  set (st1 := set_tag_index st _).
  assert (Ht : 0 <= req_tag st1 < 2 ^ 32) by apply to_uint_range.
  assert (Hi : (req_set st1 < length (cache st1))%nat).
  { unfold req_set. simpl. rewrite Hlen.
    pose proof (set_index_bound (Z.shiftr a b) s Hs). lia. }
  destruct (lookup_lt_is_Some_2 _ _ Hi) as [cs Hcs].
  assert (Hne : arr_blocks cs ≠ []).
  { intros Hnil. apply (f_equal length) in Hnil.
    rewrite (Hsets _ _ Hcs) in Hnil. simpl in Hnil. lia. }
  assert (Hroom : room st1) by (unfold room; simpl; lia).
  destruct (pass_defined st1 cs Hcs Hne Hroom) as [st' Hst'].
  destruct (pass_access_spec st1 st' Hst') as [o Ho].
  exists st1, o, st'. split_and!; try done; try lia.
  destruct (access_counters _ _ _ Ho) as (Hc' & Hhm' & Hh' & Hm' & He' & _ & Hn' & Hl' & _).
  simpl in *. unfold inv. split_and!; try lia; try congruence.
  - by apply (access_shape _ _ _ _ _ Ho).
  - by apply (stamps_below_step _ _ _ Ho).
  - by apply (unique_recency_step _ _ _ Ho).
  - by apply (unique_tags_step _ _ _ Ho).
Qed.

Lemma inv_run s E b addrs :
  valid_config s E b →
  ∀ k st, inv s E k st → k + Z.of_nat (length addrs) <= INT_MAX →
  ∃ st', run addrs s b st = Some st' ∧ inv s E (k + Z.of_nat (length addrs)) st'.
Proof.
  intros Hcfg. induction addrs as [|a addrs IH]; intros k st Hinv Hk; cbn [run length] in *.
  - exists st. split; [done|]. by rewrite Z.add_0_r.
  - destruct (inv_access s E b k a st Hcfg Hinv) as (st1 & o & st' & _ & _ & _ & _ & _ & _ & -> & Hinv'); [lia|].
    simpl. destruct (IH (k + 1) st' Hinv') as (st'' & Hrun & Hinv''); [lia|].
    exists st''. split; [done|].
    replace (k + Z.of_nat (S (length addrs)))
      with (k + 1 + Z.of_nat (length addrs)) by lia. done.
Qed.

(** At [INT_MAX] accesses the counter [lri_count] is at its largest
    value and one more access is undefined. *)
Lemma pass_at_INT_MAX st : lri_count st = INT_MAX → pass st = None.
Proof.
  intros Hc. unfold pass.
  assert (Hincr : incr (lri_count st) = None).
  { unfold incr. rewrite Hc. by rewrite Z.ltb_irrefl. }
  destruct (cache st !! _) as [cs|]; simpl; [|done].
  destruct (find_tag _ _ _).
  - rewrite Hincr. by destruct (incr (hit st)).
  - destruct (incr (miss st)); simpl; [|done].
    destruct (find_empty _ _ _).
    + by rewrite Hincr.
    + rewrite Hincr. destruct (incr (evictions st)); simpl; [|done].
      by destruct (evict _ _ _).
Qed.

Lemma run_app l1 l2 s b st :
  run (l1 ++ l2) s b st = run l1 s b st ≫= run l2 s b.
Proof.
  revert st. induction l1 as [|a l1 IH]; intros st; simpl; [done|].
  destruct (access a s b st); simpl; [apply IH | done].
Qed.

(** [parse_address] writes [tag_index] only, with a pair that depends
    on the address and the widths alone. *)
Lemma parse_address_inv a s b st st1 :
  parse_address a s b st = Some st1 →
  ∃ ti, st1 = set_tag_index st ti ∧ 0 <= ti.1 < 2 ^ 32 ∧
        ∀ st', parse_address a s b st' = Some (set_tag_index st' ti).
Proof.
  unfold parse_address. intros H.
  destruct (shr_ul a b) as [x|]; simpl in *; [|done].
  destruct (shl_ul (not_ul 0) s) as [m|]; simpl in *; [|done].
  destruct (shr_ul a (s + b)) as [t|]; simpl in *; [|done].
  injection H as <-. eexists. split_and!; [done | apply to_uint_range.. | done].
Qed.

Lemma set_tag_index_id st : set_tag_index st (tag_index st) = st.
Proof. by destruct st. Qed.

(** A second run of the code after [start] with the same request is a
    hit on the line the first run touched. *)
Lemma pass_again_hits st o st' :
  access_spec st o st' → 0 <= req_tag st < 2 ^ 32 → room st' →
  ∃ st'', pass st' = Some st'' ∧ access_spec st' Hit st''.
Proof.
  intros Hacc Ht Hroom.
  destruct (access_touch _ _ _ Hacc Ht)
    as (j & old & new & _ & Hnew & Hv & _ & Htag & _).
  destruct (access_counters _ _ _ Hacc) as (_ & _ & _ & _ & _ & Hti & _).
  assert (Hset : req_set st' = req_set st) by (unfold req_set; by rewrite Hti).
  assert (Hreq : req_tag st' = req_tag st) by (unfold req_tag; by rewrite Hti).
  specialize (Hnew (req_set st) j). rewrite decide_True in Hnew by done.
  unfold line_at in Hnew.
  destruct (cache st' !! req_set st) as [cs|] eqn:Hcs; simpl in Hnew; [|done].
  rewrite <- Hset in Hcs.
  assert (Hne : arr_blocks cs ≠ []) by (intros Hnil; by rewrite Hnil in Hnew).
  destruct (pass_defined st' cs Hcs Hne Hroom) as [st'' Hst''].
  destruct (pass_access_spec st' st'' Hst'') as [o' Ho'].
  exists st''. split; [done|].
  assert (Hmatch : matches (req_tag st') new) by (split; congruence).
  destruct o'; [done|exfalso..].
  all: inversion Ho' as [|cs' ? ? Hcs' Hnohit|cs' ? ? Hcs' Hnohit]; subst.
  all: assert (cs' = cs) as -> by congruence.
  all: by apply (Hnohit j new).
Qed.

Lemma parse_trace_run tr s b st :
  parse_trace tr s b st = run (addresses tr) s b st.
Proof.
  revert st. induction tr as [|[ty a] tr IH]; intros st; [done|].
  unfold addresses in *. cbn [parse_trace mbind list_bind type address].
  unfold touches at 1. cbn [type address].
  destruct (parse_address a s b st) as [st1|] eqn:Hst1; cycle 1.
  { destruct (is_modify ty); simpl; unfold access; by rewrite Hst1. }
  destruct (parse_address_inv _ _ _ _ _ Hst1) as (ti & -> & _ & Hany).
  unfold start. cbn [mbind option_bind].
  destruct (pass (set_tag_index st ti)) as [st2|] eqn:Hst2; cycle 1.
  { destruct (is_modify ty); simpl; unfold access; rewrite Hst1; simpl; by rewrite Hst2. }
  destruct (is_modify ty); simpl; unfold access; rewrite Hst1; simpl; rewrite Hst2; simpl.
  - rewrite Hany. simpl.
    destruct (pass_access_spec _ _ Hst2) as [o Ho].
    destruct (access_counters _ _ _ Ho) as (_ & _ & _ & _ & _ & Hti & _).
    simpl in Hti. rewrite <- Hti, set_tag_index_id.
    destruct (pass st2); simpl; [apply IH | done].
  - apply IH.
Qed.

Lemma length_addresses tr :
  Z.of_nat (length (addresses tr)) = load_store_events tr + 2 * modify_events tr.
Proof.
  unfold addresses, load_store_events, modify_events.
  induction tr as [|[ty a] tr IH]; [done|].
  cbn [mbind list_bind List.filter type]. rewrite length_app.
  unfold touches at 1. cbn [type address].
  destruct (is_modify ty); cbn [negb length]; lia.
Qed.

(** ** MODIFY lines *)

Lemma modify_two_passes a s b st st1 cs :
  parse_address a s b st = Some st1 →
  cache st1 !! req_set st1 = Some cs → arr_blocks cs ≠ [] →
  lri_count st + 2 <= INT_MAX → hit st + 2 <= INT_MAX →
  miss st + 2 <= INT_MAX → evictions st + 2 <= INT_MAX →
  ∃ o sta stb,
    pass st1 = Some sta ∧ access_spec st1 o sta ∧
    tag_index sta = tag_index st1 ∧
    pass sta = Some stb ∧ access_spec sta Hit stb ∧
    parse_trace [TraceLine MODIFY a] s b st = Some stb ∧
    hit stb = hit sta + 1 ∧ miss stb = miss sta ∧
    evictions stb = evictions sta ∧
    ((∀ k l, arr_blocks cs !! k = Some l → valid_bit l = false) →
     o = MissFilled).
Proof.
  intros Hst1 Hcs Hne Hc Hh Hm He.
  destruct (parse_address_inv _ _ _ _ _ Hst1) as (ti & Heq & Hti & _).
  assert (Ht : 0 <= req_tag st1 < 2 ^ 32) by (by rewrite Heq).
  assert (Hroom : room st1) by (rewrite Heq; unfold room, INT_MAX in *; simpl; lia).
  destruct (pass_defined st1 cs Hcs Hne Hroom) as [sta Hsta].
  destruct (pass_access_spec st1 sta Hsta) as [o Ho].
  assert (Hroom' : room sta).
  { destruct (access_counters _ _ _ Ho) as (? & ? & ? & ? & ? & _).
    rewrite Heq in *. unfold room, INT_MAX in *. simpl in *. lia. }
  destruct (pass_again_hits _ _ _ Ho Ht Hroom') as (stb & Hstb & Hhit).
  exists o, sta, stb. split_and!; try done.
  - by destruct (access_counters _ _ _ Ho) as (_ & _ & _ & _ & _ & Htidx & _).
  - cbn [parse_trace type address is_modify]. rewrite Hst1. simpl.
    unfold start. rewrite Hsta. simpl. by rewrite Hstb.
  - by inversion Hhit.
  - by inversion Hhit.
  - by inversion Hhit.
  - intros Hinvalid.
    inversion Ho as [cs' j l Hcs' Hj [Hv _]| |cs' j l Hcs' _ Hfull Hj]; subst; [exfalso|done|exfalso].
    + assert (cs' = cs) as -> by congruence.
      rewrite (Hinvalid _ _ Hj) in Hv. done.
    + assert (cs' = cs) as -> by congruence.
      specialize (Hfull j l Hj). rewrite (Hinvalid _ _ Hj) in Hfull. done.
Qed.

Lemma modify_fresh argc s E b a :
  argc ≠ 1 → valid_config s E b →
  main argc s E b (Some [TraceLine MODIFY a]) = Some (Summary 1 1 0).
Proof.
  intros Hargc Hcfg.
  destruct (inv_init s E b Hcfg) as (st0 & Hst0 & Hinv).
  unfold main. rewrite (proj2 (Z.eqb_neq argc 1) Hargc), Hst0.
  cbn [mbind option_bind].
  pose proof Hcfg as (Hs & HE & Hb).
  pose proof (cache_init_Some s E b globals0 Hs Hb) as Hst0'.
  rewrite Hst0 in Hst0'. injection Hst0' as Hst0'.
  destruct (inv_access s E b 0 a st0 Hcfg Hinv)
    as (st1 & o & st' & Hst1 & Hcache & Hlri & Ht & Hpass & Hacc & _); [done|].
  assert (Hi : is_Some (cache st1 !! req_set st1)).
  { inversion Hacc; eauto. }
  destruct Hi as [cs Hcs].
  assert (Hne : arr_blocks cs ≠ []).
  { inversion Hacc as [cs' j l Hcs' Hj| cs' j l Hcs' _ Hj|cs' j l Hcs' _ _ Hj]; subst;
      (assert (cs' = cs) as -> by congruence); intros Hnil; by rewrite Hnil in Hj. }
  destruct (modify_two_passes a s b st0 st1 cs Hst1 Hcs Hne)
    as (o' & sta & stb & Hsta & Ho' & _ & Hstb & Hhit & Hrun & Hh & Hm & He & Hfresh);
    [rewrite Hst0'; done..|].
  rewrite Hrun. simpl.
  assert (o' = MissFilled) as ->.
  { apply Hfresh. intros k l Hl.
    assert (Hline : line_at st0 (req_set st1) k = Some l).
    { unfold line_at. rewrite <- Hcache, Hcs. done. }
    by rewrite (line_at_init _ _ _ _ _ _ _ _ Hst0 Hline). }
  destruct (parse_address_inv _ _ _ _ _ Hst1) as (ti & Heq & _).
  inversion Ho'; subst. simpl in *. rewrite Hh, Hm, He. done.
Qed.

(** C3. A MODIFY line runs the code after [start] twice on the address
    of the line, with the same pair in [tag_index]: the first run is any
    step of the algorithm and the second is a hit on the line the first one touched, so its misses and
    evictions are those of the first run and its hits one more; on a
    set without a valid line the first run is a fill.  On the cache
    that [cache_init] makes, a trace of one MODIFY line ends with 1 hit,
    1 miss and no eviction. *)
Theorem C3_modify_is_miss_then_hit :
  (∀ a s b st st1 cs,
     parse_address a s b st = Some st1 →
     cache st1 !! req_set st1 = Some cs → arr_blocks cs ≠ [] →
     lri_count st + 2 <= INT_MAX → hit st + 2 <= INT_MAX →
     miss st + 2 <= INT_MAX → evictions st + 2 <= INT_MAX →
     ∃ o sta stb,
       pass st1 = Some sta ∧ access_spec st1 o sta ∧
       tag_index sta = tag_index st1 ∧
       pass sta = Some stb ∧ access_spec sta Hit stb ∧
       parse_trace [TraceLine MODIFY a] s b st = Some stb ∧
       hit stb = hit sta + 1 ∧ miss stb = miss sta ∧
       evictions stb = evictions sta ∧
       ((∀ k l, arr_blocks cs !! k = Some l → valid_bit l = false) →
        o = MissFilled)) ∧
  (∀ argc s E b a,
     argc ≠ 1 → valid_config s E b →
     main argc s E b (Some [TraceLine MODIFY a]) = Some (Summary 1 1 0)).
Proof. split; [apply modify_two_passes | apply modify_fresh]. Qed.

(** ** Whole runs *)

(** The state after the first [n] accesses of a trace, on the cache of
    a valid configuration, exists and satisfies the invariant. *)
Lemma point_inv s E b tr n :
  valid_config s E b → Z.of_nat (length (addresses tr)) <= INT_MAX →
  ∃ st0 st,
    cache_init s E b globals0 = Some st0 ∧
    run (take n (addresses tr)) s b st0 = Some st ∧
    inv s E (Z.of_nat (length (take n (addresses tr)))) st.
Proof.
  intros Hcfg Hlen.
  destruct (inv_init s E b Hcfg) as (st0 & Hst0 & Hinv).
  destruct (inv_run s E b (take n (addresses tr)) Hcfg 0 st0 Hinv)
    as (st & Hrun & Hinv').
  { rewrite length_take. lia. }
  exists st0, st. by rewrite Z.add_0_l in Hinv'.
Qed.

(** The bound on the number of accesses is the exact one: a longer
    run is undefined, [lri_count++] overflows. *)
Lemma run_too_long s E b addrs st0 :
  valid_config s E b → cache_init s E b globals0 = Some st0 →
  INT_MAX < Z.of_nat (length addrs) → run addrs s b st0 = None.
Proof.
  intros Hcfg Hst0 Hlen.
  destruct (inv_init s E b Hcfg) as (st0' & Hst0' & Hinv).
  assert (st0' = st0) as -> by congruence.
  remember (Z.to_nat INT_MAX) as n eqn:Hn.
  assert (Hn' : Z.of_nat n = INT_MAX) by (unfold INT_MAX in *; lia).
  clear Hn.
  destruct (inv_run s E b (take n addrs) Hcfg 0 st0 Hinv) as (st & Hrun & Hinv').
  { rewrite length_take. lia. }
  rewrite <- (take_drop n addrs), run_app, Hrun. cbn [mbind option_bind].
  destruct (drop n addrs) as [|a rest] eqn:Hdrop.
  { apply (f_equal length) in Hdrop. rewrite length_drop in Hdrop.
    simpl in Hdrop. lia. }
  cbn [run]. unfold access.
  destruct (parse_address a s b st) as [st1|] eqn:Hst1; [|done].
  destruct (parse_address_inv _ _ _ _ _ Hst1) as (ti & -> & _).
  cbn [mbind option_bind]. rewrite pass_at_INT_MAX; [done|].
  destruct Hinv' as (_ & Hc & _). cbn [lri_count set_tag_index].
  rewrite Hc, length_take. lia.
Qed.

(** C4. On a valid configuration, a trace of N LOAD or STORE lines and
    M MODIFY lines, with no more than [INT_MAX] accesses in all, runs to
    the summary and the hits and misses reported add up to N + 2 M. *)
Theorem C4_hits_plus_misses argc s E b tr :
  argc ≠ 1 → valid_config s E b →
  load_store_events tr + 2 * modify_events tr <= INT_MAX →
  ∃ h m e,
    main argc s E b (Some tr) = Some (Summary h m e) ∧
    h + m = load_store_events tr + 2 * modify_events tr.
Proof.
  intros Hargc Hcfg Hlen. rewrite <- length_addresses in *.
  destruct (inv_init s E b Hcfg) as (st0 & Hst0 & Hinv).
  destruct (inv_run s E b (addresses tr) Hcfg 0 st0 Hinv)
    as (st & Hrun & Hinv'); [lia|].
  exists (hit st), (miss st), (evictions st).
  unfold main. rewrite (proj2 (Z.eqb_neq argc 1) Hargc), Hst0.
  cbn [mbind option_bind]. rewrite parse_trace_run, Hrun.
  split; [done|]. destruct Hinv' as (_ & _ & Hhm & _). lia.
Qed.

(** C5. At every point of a run (after any number [n] of the accesses
    of a trace, on the cache of a valid configuration) no two valid
    lines of the cache hold the same recency, and the next access
    rewrites one line only, whose recency becomes strictly larger than
    it was. *)
Theorem C5_recency_unique_and_increasing s E b tr n :
  valid_config s E b → Z.of_nat (length (addresses tr)) <= INT_MAX →
  ∃ st0 st,
    cache_init s E b globals0 = Some st0 ∧
    parse_trace tr s b st0 = run (addresses tr) s b st0 ∧
    run (take n (addresses tr)) s b st0 = Some st ∧
    unique_recency st ∧
    ∀ a, addresses tr !! n = Some a →
      ∃ st' i j old new,
        run (take (S n) (addresses tr)) s b st0 = Some st' ∧
        access a s b st = Some st' ∧
        line_at st i j = Some old ∧ line_at st' i j = Some new ∧
        lri old < lri new ∧
        ∀ i' j', ¬ (i' = i ∧ j' = j) → line_at st' i' j' = line_at st i' j'.
Proof.
  intros Hcfg Hlen.
  destruct (point_inv s E b tr n Hcfg Hlen) as (st0 & st & Hst0 & Hrun & Hinv).
  exists st0, st. split_and!; try done.
  - apply parse_trace_run.
  - by destruct Hinv as (_ & _ & _ & _ & _ & _ & _ & Hur & _).
  - intros a Ha.
    assert (Hn : (n < length (addresses tr))%nat) by by eapply lookup_lt_Some.
    destruct (inv_access s E b _ a st Hcfg Hinv)
      as (st1 & o & st' & Hst1 & Hcache & Hlri & Ht & Hpass & Hacc & Hst' & _).
    { rewrite length_take. lia. }
    destruct (access_touch _ _ _ Hacc Ht)
      as (j & old & new & Hold & Hnew & _ & Hstamp & _).
    assert (Hlines : ∀ i' j', line_at st1 i' j' = line_at st i' j').
    { intros i' j'. unfold line_at. by rewrite Hcache. }
    exists st', (req_set st1), j, old, new. split_and!.
    + rewrite (take_S_r _ _ _ Ha), run_app, Hrun. simpl. by rewrite Hst'.
    + done.
    + by rewrite <- Hlines.
    + rewrite Hnew. by rewrite decide_True.
    + destruct Hinv as (_ & _ & _ & _ & _ & _ & Hbelow & _).
      rewrite Hlines in Hold. specialize (Hbelow _ _ _ Hold). lia.
    + intros i' j' Hne. rewrite Hnew, decide_False by done. apply Hlines.
Qed.

(** C6. At every point of a run (after any number [n] of the accesses
    of a trace, on the cache of a valid configuration) no two valid
    lines of one set hold the same tag. *)
Theorem C6_tags_unique_in_set s E b tr n :
  valid_config s E b → Z.of_nat (length (addresses tr)) <= INT_MAX →
  ∃ st0 st,
    cache_init s E b globals0 = Some st0 ∧
    parse_trace tr s b st0 = run (addresses tr) s b st0 ∧
    run (take n (addresses tr)) s b st0 = Some st ∧
    unique_tags st.
Proof.
  intros Hcfg Hlen.
  destruct (point_inv s E b tr n Hcfg Hlen) as (st0 & st & Hst0 & Hrun & Hinv).
  exists st0, st. split_and!; try done.
  - apply parse_trace_run.
  - by destruct Hinv as (_ & _ & _ & _ & _ & _ & _ & _ & Hut & _).
Qed.

(** ** The scenario of the specification: s = 1, E = 1, b = 0 *)

(** C9. With s = 1, E = 1, b = 0 and the LOAD lines at 0, 2, 0 the run
    ends with 0 hits, 3 misses and 2 evictions: the third access misses
    on the full set as the second does, and evicts as well. *)
Theorem C9_direct_mapped_scenario :
  main 9 1 1 0 (Some [TraceLine LOAD 0; TraceLine LOAD 2; TraceLine LOAD 0])
  = Some (Summary 0 3 2).
Proof. reflexivity. Qed.

(** The run does not end with one eviction. *)
Lemma C9_one_eviction_refuted :
  main 9 1 1 0 (Some [TraceLine LOAD 0; TraceLine LOAD 2; TraceLine LOAD 0])
  ≠ Some (Summary 0 3 1).
Proof. discriminate. Qed.

(** ** Tags are 32-bit *)

Lemma parse_trace_app tr1 tr2 s b st :
  parse_trace (tr1 ++ tr2) s b st = parse_trace tr1 s b st ≫= parse_trace tr2 s b.
Proof.
  revert st. induction tr1 as [|tl tr1 IH]; intros st; [done|].
  cbn [app parse_trace].
  destruct (parse_address _ _ _ _); simpl; [|done].
  destruct (start _ _); simpl; [apply IH | done].
Qed.

Lemma parse_address_same s b a1 a2 st :
  0 <= s → 0 <= b → s + b < 64 →
  Z.land (Z.shiftr a1 b) (Z.ones s) = Z.land (Z.shiftr a2 b) (Z.ones s) →
  Z.shiftr a1 (s + b) mod 2 ^ 32 = Z.shiftr a2 (s + b) mod 2 ^ 32 →
  parse_address a1 s b st = parse_address a2 s b st.
Proof.
  intros Hs Hb Hsb Hidx Htag.
  rewrite !parse_address_Some by done. unfold to_uint. by rewrite Hidx, Htag.
Qed.

(** C10. When two addresses agree on the set-index bits and their
    higher bits agree modulo 2^32, [parse_address] leaves the same pair
    for both, the tag being [address >> (s + b)] reduced modulo 2^32.
    Hence an access, and a whole trace, does the same with one address
    as with the other, and an access to the second right after an
    access to the first is a hit. *)
Theorem C10_tag_is_modulo_2_32 s b a1 a2 :
  0 <= s → 0 <= b → s + b < 64 →
  Z.land (Z.shiftr a1 b) (Z.ones s) = Z.land (Z.shiftr a2 b) (Z.ones s) →
  Z.shiftr a1 (s + b) mod 2 ^ 32 = Z.shiftr a2 (s + b) mod 2 ^ 32 →
  (∀ st, ∃ st1, parse_address a1 s b st = Some st1 ∧
                parse_address a2 s b st = Some st1 ∧
                (tag_index st1).1 = Z.shiftr a1 (s + b) mod 2 ^ 32) ∧
  (∀ st, access a1 s b st = access a2 s b st) ∧
  (∀ tr tr' ty st,
     parse_trace (tr ++ TraceLine ty a1 :: tr') s b st =
     parse_trace (tr ++ TraceLine ty a2 :: tr') s b st) ∧
  (∀ st st1,
     access a1 s b st = Some st1 → room st1 →
     ∃ st2, access a2 s b st1 = Some st2 ∧ hit st2 = hit st1 + 1 ∧
            miss st2 = miss st1 ∧ evictions st2 = evictions st1).
Proof.
  intros Hs Hb Hsb Hidx Htag.
  assert (Hsame : ∀ st, parse_address a1 s b st = parse_address a2 s b st).
  { intros st. by apply parse_address_same. }
  split_and!.
  - intros st. rewrite <- Hsame, parse_address_Some by done. by eexists.
  - intros st. unfold access. by rewrite Hsame.
  - intros tr tr' ty st. rewrite !parse_trace_app.
    destruct (parse_trace tr s b st) as [st1|]; simpl; [|done].
    by rewrite Hsame.
  - intros st st1 Hacc Hroom. unfold access in *. rewrite <- Hsame.
    destruct (parse_address a1 s b st) as [st0|] eqn:Hst0; simpl in Hacc; [|done].
    destruct (parse_address_inv _ _ _ _ _ Hst0) as (ti & -> & Hti & Hany).
    destruct (pass_access_spec _ _ Hacc) as [o Ho].
    destruct (access_counters _ _ _ Ho) as (_ & _ & _ & _ & _ & Htidx & _).
    simpl in Htidx. rewrite Hany, <- Htidx, set_tag_index_id. simpl.
    destruct (pass_again_hits _ _ _ Ho Hti Hroom) as (st2 & Hst2 & Hhit).
    exists st2. split; [done|]. by inversion Hhit.
Qed.

(** ** The address split *)

(** With [s = 0] the set index is 0. *)
Lemma parse_address_s0 a b st :
  0 <= b < 64 →
  ∃ st1, parse_address a 0 b st = Some st1 ∧ (tag_index st1).2 = 0.
Proof.
  intros Hb. rewrite parse_address_Some by lia. eexists. split; [done|].
  simpl. by rewrite Z.land_0_r.
Qed.

(** Where nothing is cut off (the set index has at most 32 bits and the
    address at most [32 + s + b]) the pair is the one of the
    specification and the address is put together again from it. *)
Lemma parse_address_recovers a s b st :
  0 <= a → 0 <= s <= 32 → 0 <= b → s + b < 64 → a < 2 ^ (32 + s + b) →
  ∃ st1, parse_address a s b st = Some st1 ∧
    (tag_index st1).1 = Z.shiftr a (s + b) ∧
    (tag_index st1).2 = Z.land (Z.shiftr a b) (Z.ones s) ∧
    Z.lor (Z.lor (Z.shiftl (tag_index st1).1 (s + b))
                 (Z.shiftl (tag_index st1).2 b))
          (Z.land a (Z.ones b)) = a.
Proof.
  intros Ha Hs Hb Hsb Hlt. rewrite parse_address_Some by lia.
  eexists. split; [done|]. simpl.
  assert (Htag : to_uint (Z.shiftr a (s + b)) = Z.shiftr a (s + b)).
  { unfold to_uint. apply Z.mod_small. rewrite Z.shiftr_div_pow2 by lia.
    assert (0 < 2 ^ (s + b)) by (apply Z.pow_pos_nonneg; lia).
    split; [by apply Z.div_pos|].
    apply Z.div_lt_upper_bound; [done|].
    by rewrite <- Z.pow_add_r, (Z.add_comm (s + b)), Z.add_assoc by lia. }
  assert (Hidx : to_uint (Z.land (Z.shiftr a b) (Z.ones s))
                 = Z.land (Z.shiftr a b) (Z.ones s)).
  { unfold to_uint. apply Z.mod_small. rewrite Z.land_ones by lia.
    assert (0 < 2 ^ s) by (apply Z.pow_pos_nonneg; lia).
    assert (2 ^ s <= 2 ^ 32) by (apply Z.pow_le_mono_r; lia).
    pose proof (Z.mod_pos_bound (Z.shiftr a b) (2 ^ s)). lia. }
  rewrite Htag, Hidx. split_and!; try done.
  apply Z.bits_inj'. intros n Hn.
  rewrite !Z.lor_spec, !Z.shiftl_spec, !Z.land_spec, !Z.testbit_ones by lia.
  destruct (Z.lt_ge_cases n b) as [Hnb|Hnb].
  - rewrite (Z.testbit_neg_r _ (n - (s + b))), (Z.testbit_neg_r _ (n - b)) by lia.
    simpl. replace (0 <=? n) with true by (symmetry; apply Z.leb_le; lia).
    replace (n <? b) with true by (symmetry; apply Z.ltb_lt; lia).
    by rewrite andb_true_r.
  - replace (n <? b) with false by (symmetry; apply Z.ltb_ge; lia).
    rewrite !andb_false_r, orb_false_r.
    rewrite (Z.shiftr_spec a b (n - b)) by lia.
    replace (n - b + b) with n by lia.
    replace (0 <=? n - b) with true by (symmetry; apply Z.leb_le; lia).
    destruct (Z.lt_ge_cases n (s + b)) as [Hnsb|Hnsb].
    + rewrite (Z.testbit_neg_r _ (n - (s + b))) by lia.
      replace (n - b <? s) with true by (symmetry; apply Z.ltb_lt; lia).
      simpl. by rewrite andb_true_r.
    + rewrite Z.shiftr_spec by lia.
      replace (n - (s + b) + (s + b)) with n by lia.
      replace (n - b <? s) with false by (symmetry; apply Z.ltb_ge; lia).
      simpl. by rewrite andb_false_r, orb_false_r.
Qed.

(** C2. For a 64-bit address and [s, b >= 0] with [s + b < 64],
    [parse_address] leaves the low 32 bits of
    [(address >> b) & ((1 << s) - 1)] as set index and the low 32 bits
    of [address >> (s + b)] as tag; [s = 0] gives set index 0; when
    [s <= 32] and the address is below [2^(32 + s + b)] these are the
    full values and the address is [(tag << (s + b)) | (index << b)]
    or-ed with its low [b] bits. *)
Theorem C2_parse_address_split a s b st :
  0 <= a < 2 ^ 64 → 0 <= s → 0 <= b → s + b < 64 →
  ∃ st1,
    parse_address a s b st = Some st1 ∧
    (tag_index st1).2 = Z.land (Z.shiftr a b) (Z.ones s) mod 2 ^ 32 ∧
    (tag_index st1).1 = Z.shiftr a (s + b) mod 2 ^ 32 ∧
    (s = 0 → (tag_index st1).2 = 0) ∧
    (s <= 32 → a < 2 ^ (32 + s + b) →
     (tag_index st1).2 = Z.land (Z.shiftr a b) (Z.ones s) ∧
     (tag_index st1).1 = Z.shiftr a (s + b) ∧
     Z.lor (Z.lor (Z.shiftl (tag_index st1).1 (s + b))
                  (Z.shiftl (tag_index st1).2 b))
           (Z.land a (Z.ones b)) = a).
Proof.
  intros Ha Hs Hb Hsb.
  pose proof (parse_address_Some a s b st Hs Hb Hsb) as Hst1.
  eexists. split; [exact Hst1|]. split_and!; try done.
  - intros ->. destruct (parse_address_s0 a b st) as (st1 & Hst1' & H0); [lia|].
    rewrite Hst1 in Hst1'. injection Hst1' as <-. exact H0.
  - intros Hs32 Hlt.
    destruct (parse_address_recovers a s b st) as (st1 & Hst1' & Hrec); try lia.
    rewrite Hst1 in Hst1'. injection Hst1' as <-. tauto.
Qed.

(** The tag of the address [2^32] with [s = b = 0] is 0 and not
    [address >> (s + b)], and the address put together from the pair is
    0; the set index of the address [2^40] with [s = 41], [b = 0] is 0
    and not [(address >> b) & ((1 << s) - 1)]. *)
Lemma C2_full_tag_refuted :
  (∃ st,
     parse_address (2 ^ 32) 0 0 globals0 = Some st ∧
     tag_index st = (0, 0) ∧
     (tag_index st).1 ≠ Z.shiftr (2 ^ 32) (0 + 0) ∧
     Z.lor (Z.lor (Z.shiftl (tag_index st).1 (0 + 0))
                  (Z.shiftl (tag_index st).2 0))
           (Z.land (2 ^ 32) (Z.ones 0)) ≠ 2 ^ 32) ∧
  (∃ st,
     parse_address (2 ^ 40) 41 0 globals0 = Some st ∧
     (tag_index st).2 = 0 ∧
     (tag_index st).2 ≠ Z.land (Z.shiftr (2 ^ 40) 0) (Z.shiftl 1 41 - 1)).
Proof. split; (eexists; split; [reflexivity|]; done). Qed.

(** C7. With [s + b >= 64] the shift [address >> (s + b)] is by at
    least the width of [unsigned long]; the code has no guard for it,
    and [parse_address] has no defined result. *)
Theorem C7_wide_shift_not_guarded a s b st :
  0 <= s → 0 <= b → 64 <= s + b → parse_address a s b st = None.
Proof.
  intros Hs Hb Hsb. unfold parse_address.
  rewrite (shr_ul_None a (s + b)) by done.
  destruct (shr_ul a b); simpl; [|done].
  destruct (shl_ul (not_ul 0) s); done.
Qed.

(** With [s = b = 32] the address 1 has no tag, and so not the tag 0. *)
Lemma C7_tag_zero_refuted :
  ¬ ∃ st, parse_address 1 32 32 globals0 = Some st ∧ (tag_index st).1 = 0.
Proof. intros (st & Hst & _). discriminate Hst. Qed.

(** ** The checks of [main] *)

Lemma main_rejects argc s E b tr :
  main argc s E b tr = Some MissingArgument ↔ argc = 1.
Proof.
  unfold main. destruct (Z.eqb_spec argc 1) as [->|Hne]; [done|].
  split; [|done]. intros H.
  destruct (cache_init s E b globals0); simpl in H; [|done].
  destruct tr as [tr|]; [|done].
  destruct (parse_trace tr s b _); done.
Qed.

Lemma pass_no_line st cs :
  cache st !! req_set st = Some cs → arr_blocks cs = [] → pass st = None.
Proof.
  intros Hcs Hnil. unfold pass. fold (req_set st). rewrite Hcs. simpl.
  rewrite Hnil. simpl.
  destruct (incr (miss st)); simpl; [|done].
  destruct (incr (evictions st)); done.
Qed.

(** C8. [main] checks [argc] only: it returns before [cache_init]
    exactly when no argument is given.  Otherwise [cache_init] gets
    [s], [E] and [b] as they are.  With [E < 1] and [s], [b] in 0..30
    the cache is made, [2^s] sets without a line, and the trace is run:
    the empty trace gives the summary 0 0 0 and a trace with a line is
    undefined at its first access.  With a negative [s] or [b],
    [cache_init] shifts by a negative count. *)
Theorem C8_only_argc_is_checked argc s E b tr :
  (main argc s E b tr = Some MissingArgument ↔ argc = 1) ∧
  (argc ≠ 1 → 0 <= s <= 30 → 0 <= b <= 30 → E < 1 →
   (∃ st, cache_init s E b globals0 = Some st ∧
          length (cache st) = Z.to_nat (2 ^ s) ∧
          ∀ i cs, cache st !! i = Some cs → arr_blocks cs = []) ∧
   main argc s E b (Some []) = Some (Summary 0 0 0) ∧
   ∀ tl tr', main argc s E b (Some (tl :: tr')) = None) ∧
  (argc ≠ 1 → s < 0 ∨ b < 0 →
   cache_init s E b globals0 = None ∧ main argc s E b tr = None).
Proof.
  split_and!.
  - apply main_rejects.
  - intros Hargc Hs Hb HE.
    pose proof (cache_init_Some s E b globals0 Hs Hb) as Hinit.
    rewrite (Z2Nat.nonpos E) in Hinit by lia. simpl in Hinit.
    assert (Hnil : ∀ i cs,
      ((λ i : nat, CSet (Z.of_nat i) []) <$> seq 0 (Z.to_nat (2 ^ s))) !! i = Some cs →
      arr_blocks cs = []).
    { intros i cs Hi. rewrite list_lookup_fmap in Hi.
      by apply fmap_Some in Hi as (n & _ & ->). }
    split_and!.
    + eexists. split; [exact Hinit|]. simpl. split; [|done].
      by rewrite length_fmap, length_seq.
    + unfold main. by rewrite (proj2 (Z.eqb_neq argc 1) Hargc), Hinit.
    + intros tl tr'. unfold main.
      rewrite (proj2 (Z.eqb_neq argc 1) Hargc), Hinit.
      cbn [mbind option_bind parse_trace].
      rewrite parse_address_Some by lia. cbn [mbind option_bind].
      set (st1 := set_tag_index _ _).
      assert (Hi : (req_set st1 < length (cache st1))%nat).
      { unfold req_set. simpl. rewrite length_fmap, length_seq.
        pose proof (set_index_bound (Z.shiftr (address tl) b) s Hs). lia. }
      destruct (lookup_lt_is_Some_2 _ _ Hi) as [cs Hcs].
      unfold start. rewrite (pass_no_line st1 cs Hcs); [done|].
      by eapply Hnil.
  - intros Hargc Hneg.
    assert (Hinit : cache_init s E b globals0 = None).
    { unfold cache_init, shl_int_1.
      destruct Hneg.
      - destruct (Z.leb_spec 0 s); [lia|]. done.
      - destruct (Z.leb_spec 0 b); [lia|].
        destruct ((0 <=? s) && (s <? 31)); done. }
    split; [done|]. unfold main.
    by rewrite (proj2 (Z.eqb_neq argc 1) Hargc), Hinit.
Qed.

(** With [E = 0], [s = b = 0] and some argument given, nothing is
    rejected: the cache is made and the run over the empty trace prints
    its summary. *)
Lemma C8_fail_fast_refuted :
  0 < 1 ∧
  main 9 0 0 0 (Some []) = Some (Summary 0 0 0) ∧
  main 9 0 0 0 (Some []) ≠ Some MissingArgument ∧
  cache_init 0 0 0 globals0 = Some (State 1 0 1 0 0 0 0 (0, 0) [CSet 0 []]).
Proof. split_and!; [lia | reflexivity | discriminate | reflexivity]. Qed.

(** ** Instances *)

Lemma C1_witness :
  ∃ o st',
    pass one_line = Some st' ∧ access_spec one_line o st' ∧
    (o = MissEvicted →
     ∀ m lm,
       arr_blocks (CSet 0 [Block false (-1) (-1)]) !! m = Some lm →
       (∀ k l', arr_blocks (CSet 0 [Block false (-1) (-1)]) !! k = Some l' →
                k ≠ m → lri lm < lri l') →
       cache st' =
         <[req_set one_line :=
             CSet (index (CSet 0 [Block false (-1) (-1)]))
               (<[m := Block true (to_int (req_tag one_line)) (lri_count one_line)]>
                  (arr_blocks (CSet 0 [Block false (-1) (-1)])))]> (cache one_line)).
Proof.
  apply (C1_pass_follows_algorithm one_line (CSet 0 [Block false (-1) (-1)])).
  - reflexivity.
  - discriminate.
  - unfold room, INT_MAX. simpl. lia.
Defined.

Lemma C2_witness :
  0 <= 6 < 2 ^ 64 ∧ 0 <= 1 ∧ 0 <= 1 ∧ 1 + 1 < 64 ∧
  ∃ st1,
    parse_address 6 1 1 globals0 = Some st1 ∧
    (tag_index st1).2 = Z.land (Z.shiftr 6 1) (Z.ones 1) mod 2 ^ 32 ∧
    (tag_index st1).1 = Z.shiftr 6 (1 + 1) mod 2 ^ 32 ∧
    (1 = 0 → (tag_index st1).2 = 0) ∧
    (1 <= 32 → 6 < 2 ^ (32 + 1 + 1) →
     (tag_index st1).2 = Z.land (Z.shiftr 6 1) (Z.ones 1) ∧
     (tag_index st1).1 = Z.shiftr 6 (1 + 1) ∧
     Z.lor (Z.lor (Z.shiftl (tag_index st1).1 (1 + 1))
                  (Z.shiftl (tag_index st1).2 1))
           (Z.land 6 (Z.ones 1)) = 6).
Proof.
  split_and!; [lia..|]. apply (C2_parse_address_split 6 1 1 globals0); lia.
Defined.

Lemma C3_witness :
  9 ≠ 1 ∧ valid_config 0 1 0 ∧
  main 9 0 1 0 (Some [TraceLine MODIFY 5]) = Some (Summary 1 1 0) ∧
  ∃ o sta stb,
    pass (set_tag_index one_line (5, 0)) = Some sta ∧
    access_spec (set_tag_index one_line (5, 0)) o sta ∧
    tag_index sta = tag_index (set_tag_index one_line (5, 0)) ∧
    pass sta = Some stb ∧ access_spec sta Hit stb ∧
    parse_trace [TraceLine MODIFY 5] 0 0 one_line = Some stb ∧
    hit stb = hit sta + 1 ∧ miss stb = miss sta ∧
    evictions stb = evictions sta ∧
    ((∀ k l, arr_blocks (CSet 0 [Block false (-1) (-1)]) !! k = Some l →
             valid_bit l = false) →
     o = MissFilled).
Proof.
  assert (Hcfg : valid_config 0 1 0) by (unfold valid_config; lia).
  split_and!; [lia | exact Hcfg | |].
  - apply (proj2 C3_modify_is_miss_then_hit 9 0 1 0 5); [lia | exact Hcfg].
  - apply (proj1 C3_modify_is_miss_then_hit 5 0 0 one_line
             (set_tag_index one_line (5, 0)) (CSet 0 [Block false (-1) (-1)]));
      first [reflexivity | discriminate | unfold INT_MAX; simpl; lia].
Defined.

Lemma C4_witness :
  9 ≠ 1 ∧ valid_config 1 1 0 ∧
  load_store_events [TraceLine LOAD 0; TraceLine MODIFY 2; TraceLine STORE 0]
  + 2 * modify_events [TraceLine LOAD 0; TraceLine MODIFY 2; TraceLine STORE 0]
  <= INT_MAX ∧
  ∃ h m e,
    main 9 1 1 0 (Some [TraceLine LOAD 0; TraceLine MODIFY 2; TraceLine STORE 0])
    = Some (Summary h m e) ∧
    h + m =
      load_store_events [TraceLine LOAD 0; TraceLine MODIFY 2; TraceLine STORE 0]
      + 2 * modify_events [TraceLine LOAD 0; TraceLine MODIFY 2; TraceLine STORE 0].
Proof.
  assert (Hcfg : valid_config 1 1 0) by (unfold valid_config; lia).
  split_and!; [lia | exact Hcfg | vm_compute; discriminate |].
  apply (C4_hits_plus_misses 9 1 1 0); [lia | exact Hcfg | vm_compute; discriminate].
Defined.

Lemma C5_witness :
  valid_config 1 2 0 ∧
  Z.of_nat (length (addresses [TraceLine LOAD 0; TraceLine MODIFY 2])) <= INT_MAX ∧
  ∃ st0 st,
    cache_init 1 2 0 globals0 = Some st0 ∧
    parse_trace [TraceLine LOAD 0; TraceLine MODIFY 2] 1 0 st0 =
      run (addresses [TraceLine LOAD 0; TraceLine MODIFY 2]) 1 0 st0 ∧
    run (take 1 (addresses [TraceLine LOAD 0; TraceLine MODIFY 2])) 1 0 st0 = Some st ∧
    unique_recency st ∧
    ∀ a, addresses [TraceLine LOAD 0; TraceLine MODIFY 2] !! 1%nat = Some a →
      ∃ st' i j old new,
        run (take 2 (addresses [TraceLine LOAD 0; TraceLine MODIFY 2])) 1 0 st0 = Some st' ∧
        access a 1 0 st = Some st' ∧
        line_at st i j = Some old ∧ line_at st' i j = Some new ∧
        lri old < lri new ∧
        ∀ i' j', ¬ (i' = i ∧ j' = j) → line_at st' i' j' = line_at st i' j'.
Proof.
  assert (Hcfg : valid_config 1 2 0) by (unfold valid_config; lia).
  split_and!; [exact Hcfg | vm_compute; discriminate |].
  apply (C5_recency_unique_and_increasing 1 2 0
           [TraceLine LOAD 0; TraceLine MODIFY 2] 1);
    [exact Hcfg | vm_compute; discriminate].
Defined.

Lemma C6_witness :
  valid_config 1 2 0 ∧
  Z.of_nat (length (addresses [TraceLine LOAD 0; TraceLine MODIFY 2])) <= INT_MAX ∧
  ∃ st0 st,
    cache_init 1 2 0 globals0 = Some st0 ∧
    parse_trace [TraceLine LOAD 0; TraceLine MODIFY 2] 1 0 st0 =
      run (addresses [TraceLine LOAD 0; TraceLine MODIFY 2]) 1 0 st0 ∧
    run (take 3 (addresses [TraceLine LOAD 0; TraceLine MODIFY 2])) 1 0 st0 = Some st ∧
    unique_tags st.
Proof.
  assert (Hcfg : valid_config 1 2 0) by (unfold valid_config; lia).
  split_and!; [exact Hcfg | vm_compute; discriminate |].
  apply (C6_tags_unique_in_set 1 2 0 [TraceLine LOAD 0; TraceLine MODIFY 2] 3);
    [exact Hcfg | vm_compute; discriminate].
Defined.

Lemma C7_witness :
  0 <= 32 ∧ 0 <= 32 ∧ 64 <= 32 + 32 ∧ parse_address 1 32 32 globals0 = None.
Proof.
  split_and!; [lia..|]. apply (C7_wide_shift_not_guarded 1 32 32 globals0); lia.
Defined.

Lemma C8_witness :
  9 ≠ 1 ∧ 0 < 1 ∧
  (main 9 0 0 0 (Some []) = Some MissingArgument ↔ 9 = 1) ∧
  main 9 0 0 0 (Some []) = Some (Summary 0 0 0) ∧
  main 9 0 0 0 (Some [TraceLine LOAD 0]) = None ∧
  main 9 (-1) 1 0 (Some []) = None.
Proof.
  split_and!; [lia | lia | ..].
  - apply (C8_only_argc_is_checked 9 0 0 0 (Some [])).
  - apply (C8_only_argc_is_checked 9 0 0 0 (Some [])); lia.
  - apply (C8_only_argc_is_checked 9 0 0 0 (Some [])); lia.
  - apply (C8_only_argc_is_checked 9 (-1) 1 0 (Some [])); lia.
Defined.

Lemma C10_witness :
  0 <= 0 ∧ 0 + 0 < 64 ∧ 0 ≠ 2 ^ 32 ∧
  Z.land (Z.shiftr 0 0) (Z.ones 0) = Z.land (Z.shiftr (2 ^ 32) 0) (Z.ones 0) ∧
  Z.shiftr 0 (0 + 0) mod 2 ^ 32 = Z.shiftr (2 ^ 32) (0 + 0) mod 2 ^ 32 ∧
  (∀ st, ∃ st1, parse_address 0 0 0 st = Some st1 ∧
                parse_address (2 ^ 32) 0 0 st = Some st1 ∧
                (tag_index st1).1 = Z.shiftr 0 (0 + 0) mod 2 ^ 32) ∧
  (∀ st, access 0 0 0 st = access (2 ^ 32) 0 0 st) ∧
  (∀ tr tr' ty st,
     parse_trace (tr ++ TraceLine ty 0 :: tr') 0 0 st =
     parse_trace (tr ++ TraceLine ty (2 ^ 32) :: tr') 0 0 st) ∧
  (∀ st st1,
     access 0 0 0 st = Some st1 → room st1 →
     ∃ st2, access (2 ^ 32) 0 0 st1 = Some st2 ∧ hit st2 = hit st1 + 1 ∧
            miss st2 = miss st1 ∧ evictions st2 = evictions st1).
Proof.
  split_and!; [lia | lia | lia | reflexivity | reflexivity | ..];
    apply (C10_tag_is_modulo_2_32 0 0 0 (2 ^ 32)); first [lia | reflexivity].
Defined.

(** * Further properties of the engine *)

(** ** Induction on the accesses of a run *)

Lemma run_steps (R : state → state → Prop) s b :
  (∀ st, R st st) →
  (∀ x y z, R x y → R y z → R x z) →
  (∀ st ti, R st (set_tag_index st ti)) →
  (∀ st o st', access_spec st o st' → R st st') →
  ∀ addrs st st', run addrs s b st = Some st' → R st st'.
Proof.
  intros Hrefl Htrans Hti Hstep.
  induction addrs as [|a addrs IH]; intros st st' Hrun; simpl in Hrun.
  - injection Hrun as <-. apply Hrefl.
  - unfold access in Hrun.
    destruct (parse_address a s b st) as [st1|] eqn:Hst1; simpl in Hrun; [|done].
    destruct (pass st1) as [st2|] eqn:Hst2; simpl in Hrun; [|done].
    destruct (parse_address_inv _ _ _ _ _ Hst1) as (ti & -> & _).
    destruct (pass_access_spec _ _ Hst2) as [o Ho].
    eapply Htrans; [apply Hti|]. eapply Htrans; [by eapply Hstep|]. by apply IH.
Qed.

(** ** The shape of the cache *)

Lemma same_shape_refl st : same_shape st st.
Proof. unfold same_shape. split_and!; try done. intros i cs Hcs. eauto. Qed.

Lemma same_shape_trans x y z : same_shape x y → same_shape y z → same_shape x z.
Proof.
  intros (? & ? & ? & ? & Hxy) (? & ? & ? & ? & Hyz).
  unfold same_shape. split_and!; try congruence.
  intros i cs Hcs. destruct (Hxy i cs Hcs) as (cs' & Hcs' & ? & ?).
  destruct (Hyz i cs' Hcs') as (cs'' & Hcs'' & ? & ?).
  exists cs''. split_and!; congruence.
Qed.

Lemma same_shape_step st o st' : access_spec st o st' → same_shape st st'.
Proof.
  intros Hacc.
  assert (Hstore : ∀ c m h e cs j new,
    cache st !! req_set st = Some cs →
    same_shape st (store st c m h e (req_set st) cs (<[j := new]> (arr_blocks cs)))).
  { intros c m h e cs j new Hcs. unfold same_shape. simpl.
    split_and!; try done; [by rewrite length_insert|].
    intros i cs0 Hi. destruct (decide (i = req_set st)) as [->|Hne].
    - rewrite list_lookup_insert_eq by by eapply lookup_lt_Some.
      eexists. split; [done|]. simpl. rewrite length_insert.
      split; congruence.
    - rewrite list_lookup_insert_ne by done. eauto. }
  inversion Hacc; subst; by apply Hstore.
Qed.

(** X1. [parse_trace] never resizes the cache: when it runs to the end,
    from any state, the globals [sets], [lines] and [block_bits], the
    number of sets, the [index] field of each set and the number of
    blocks of each set are what they were. *)
Theorem parse_trace_same_shape tr s b st st' :
  parse_trace tr s b st = Some st' → same_shape st st'.
Proof.
  rewrite parse_trace_run.
  apply (run_steps same_shape s b).
  - apply same_shape_refl.
  - apply same_shape_trans.
  - intros st0 ti. apply (same_shape_refl st0).
  - apply same_shape_step.
Qed.

Lemma parse_trace_same_shape_witness :
  ∃ st',
    parse_trace [TraceLine LOAD 1; TraceLine MODIFY 2; TraceLine STORE 3] 0 0 two_lines
    = Some st' ∧ same_shape two_lines st'.
Proof.
  eexists. split; [reflexivity|].
  apply (parse_trace_same_shape
           [TraceLine LOAD 1; TraceLine MODIFY 2; TraceLine STORE 3] 0 0 two_lines).
  reflexivity.
Defined.

(** ** What one access counts *)

(** X2. One run of the code after [start] moves [lri_count] on by one
    and counts exactly one of three things: a hit when a valid line of
    the set holds the tag; a miss alone when none does and some line is
    not valid; a miss and an eviction when none does and every line is
    valid. *)
Theorem pass_counts st st' :
  pass st = Some st' →
  ∃ cs,
    cache st !! req_set st = Some cs ∧
    lri_count st' = lri_count st + 1 ∧
    (((∃ k l, arr_blocks cs !! k = Some l ∧ matches (req_tag st) l) ∧
      hit st' = hit st + 1 ∧ miss st' = miss st ∧
      evictions st' = evictions st) ∨
     (¬ (∃ k l, arr_blocks cs !! k = Some l ∧ matches (req_tag st) l) ∧
      ¬ (∀ k l, arr_blocks cs !! k = Some l → valid_bit l = true) ∧
      hit st' = hit st ∧ miss st' = miss st + 1 ∧
      evictions st' = evictions st) ∨
     (¬ (∃ k l, arr_blocks cs !! k = Some l ∧ matches (req_tag st) l) ∧
      (∀ k l, arr_blocks cs !! k = Some l → valid_bit l = true) ∧
      hit st' = hit st ∧ miss st' = miss st + 1 ∧
      evictions st' = evictions st + 1)).
Proof.
  intros Hpass. destruct (pass_access_spec _ _ Hpass) as [o Ho].
  inversion Ho as [cs j l Hcs Hj Hm Hfirst
                  |cs j l Hcs Hnohit Hj Hv Hfirst
                  |cs j l Hcs Hnohit Hfull Hj Hmin]; subst;
    exists cs; simpl; split_and!; try done.
  - left. split_and!; eauto.
  - right. left. split_and!; try done.
    + intros (k & l' & Hk & Hm). by eapply Hnohit.
    + intros Hfull. specialize (Hfull _ _ Hj). congruence.
  - right. right. split_and!; try done.
    intros (k & l' & Hk & Hm). by eapply Hnohit.
Qed.

Lemma pass_counts_witness :
  ∃ st' cs,
    pass two_lines = Some st' ∧
    cache two_lines !! req_set two_lines = Some cs ∧
    lri_count st' = lri_count two_lines + 1 ∧
    (((∃ k l, arr_blocks cs !! k = Some l ∧ matches (req_tag two_lines) l) ∧
      hit st' = hit two_lines + 1 ∧ miss st' = miss two_lines ∧
      evictions st' = evictions two_lines) ∨
     (¬ (∃ k l, arr_blocks cs !! k = Some l ∧ matches (req_tag two_lines) l) ∧
      ¬ (∀ k l, arr_blocks cs !! k = Some l → valid_bit l = true) ∧
      hit st' = hit two_lines ∧ miss st' = miss two_lines + 1 ∧
      evictions st' = evictions two_lines) ∨
     (¬ (∃ k l, arr_blocks cs !! k = Some l ∧ matches (req_tag two_lines) l) ∧
      (∀ k l, arr_blocks cs !! k = Some l → valid_bit l = true) ∧
      hit st' = hit two_lines ∧ miss st' = miss two_lines + 1 ∧
      evictions st' = evictions two_lines + 1)).
Proof.
  eexists.
  destruct (pass_counts two_lines _ eq_refl) as (cs & H).
  exists cs. split; [reflexivity | exact H].
Defined.

(** ** Valid lines *)

Lemma keeps_valid_step st o st' : access_spec st o st' → keeps_valid st st'.
Proof.
  intros Hacc i' j' x Hx Hvx.
  assert (Hstore : ∀ c m h e cs j old new,
    cache st !! req_set st = Some cs → arr_blocks cs !! j = Some old →
    valid_bit new = true →
    ∃ y, line_at (store st c m h e (req_set st) cs (<[j := new]> (arr_blocks cs))) i' j'
         = Some y ∧ valid_bit y = true).
  { intros c m h e cs j old new Hcs Hj Hv.
    rewrite line_at_store by (done || by eapply lookup_lt_Some).
    destruct (decide _); eauto. }
  inversion Hacc as [cs j l Hcs Hj [Hm _] Hfirst
                    |cs j l Hcs Hnohit Hj Hv Hfirst
                    |cs j l Hcs Hnohit Hfull Hj Hmin]; subst.
  - by eapply Hstore.
  - by eapply Hstore.
  - eapply Hstore; try done. simpl. by eapply Hfull.
Qed.

(** X3. The code never clears a valid bit: a line that is valid stays
    valid through any trace that [parse_trace] runs to the end. *)
Theorem parse_trace_keeps_valid tr s b st st' :
  parse_trace tr s b st = Some st' → keeps_valid st st'.
Proof.
  rewrite parse_trace_run.
  apply (run_steps keeps_valid s b).
  - intros st0 i j x Hx Hv. eauto.
  - intros x y z Hxy Hyz i j l Hl Hv.
    destruct (Hxy i j l Hl Hv) as (l' & Hl' & Hv'). by apply (Hyz i j l').
  - intros st0 ti i j x Hx Hv. exists x. done.
  - apply keeps_valid_step.
Qed.

Lemma parse_trace_keeps_valid_witness :
  ∃ st',
    parse_trace [TraceLine LOAD 1; TraceLine MODIFY 2; TraceLine STORE 3] 0 0 two_lines
    = Some st' ∧ keeps_valid two_lines st'.
Proof.
  eexists. split; [reflexivity|].
  apply (parse_trace_keeps_valid
           [TraceLine LOAD 1; TraceLine MODIFY 2; TraceLine STORE 3] 0 0 two_lines).
  reflexivity.
Defined.

(** ** Misses that fill a line *)

Lemma valid_in_insert bs j old new :
  bs !! j = Some old →
  valid_in (<[j := new]> bs)
  = valid_in bs - Z.b2z (valid_bit old) + Z.b2z (valid_bit new).
Proof.
  revert j. induction bs as [|x bs IH]; intros [|j] Hj; simpl in *; try done.
  - injection Hj as ->. lia.
  - rewrite (IH j Hj). lia.
Qed.

Lemma valid_sets_insert c i cs cs' :
  c !! i = Some cs →
  valid_sets (<[i := cs']> c)
  = valid_sets c - valid_in (arr_blocks cs) + valid_in (arr_blocks cs').
Proof.
  revert i. induction c as [|x c IH]; intros [|i] Hi; simpl in *; try done.
  - injection Hi as ->. lia.
  - rewrite (IH i Hi). lia.
Qed.

Lemma fills_step st o st' :
  access_spec st o st' →
  miss st' - evictions st' - valid_lines st'
  = miss st - evictions st - valid_lines st.
Proof.
  intros Hacc. unfold valid_lines.
  inversion Hacc as [cs j l Hcs Hj [Hm _] Hfirst
                    |cs j l Hcs Hnohit Hj Hv Hfirst
                    |cs j l Hcs Hnohit Hfull Hj Hmin]; subst; simpl;
    rewrite (valid_sets_insert _ _ cs) by done; simpl;
    rewrite (valid_in_insert _ _ l) by done; simpl.
  - lia.
  - rewrite Hv. simpl. lia.
  - lia.
Qed.

(** X4. Through any trace that [parse_trace] runs to the end, the
    misses that are not evictions are the lines that became valid:
    [miss - evictions - valid lines] does not change. *)
Theorem parse_trace_fills tr s b st st' :
  parse_trace tr s b st = Some st' →
  miss st' - evictions st' - valid_lines st'
  = miss st - evictions st - valid_lines st.
Proof.
  rewrite parse_trace_run.
  apply (run_steps (λ x y, miss y - evictions y - valid_lines y
                           = miss x - evictions x - valid_lines x) s b).
  - done.
  - intros x y z Hxy Hyz. lia.
  - done.
  - apply fills_step.
Qed.

Lemma parse_trace_fills_witness :
  ∃ st',
    parse_trace [TraceLine LOAD 1; TraceLine MODIFY 2; TraceLine STORE 3] 0 0 two_lines
    = Some st' ∧
    miss st' - evictions st' - valid_lines st'
    = miss two_lines - evictions two_lines - valid_lines two_lines.
Proof.
  eexists. split; [reflexivity|].
  apply (parse_trace_fills
           [TraceLine LOAD 1; TraceLine MODIFY 2; TraceLine STORE 3] 0 0 two_lines).
  reflexivity.
Defined.

(** ** The counters at every point of a run from [cache_init] *)

Lemma valid_in_bounds bs : 0 <= valid_in bs <= Z.of_nat (length bs).
Proof.
  induction bs as [|x bs IH]; simpl; [lia|].
  destruct (valid_bit x); simpl; lia.
Qed.

Lemma valid_sets_bounds c E :
  (∀ i cs, c !! i = Some cs → length (arr_blocks cs) = E) →
  0 <= valid_sets c <= Z.of_nat (length c) * Z.of_nat E.
Proof.
  induction c as [|x c IH]; intros Hlen; simpl; [lia|].
  pose proof (valid_in_bounds (arr_blocks x)) as Hx.
  rewrite (Hlen 0%nat x eq_refl) in Hx.
  assert (Hc : 0 <= valid_sets c <= Z.of_nat (length c) * Z.of_nat E).
  { apply IH. intros i cs Hi. by apply (Hlen (S i)). }
  lia.
Qed.

Lemma valid_lines_init s E b st st0 :
  cache_init s E b st = Some st0 → valid_lines st0 = 0.
Proof.
  unfold cache_init. intros Hinit.
  destruct (shl_int_1 s) as [n|]; simpl in Hinit; [|done].
  destruct (shl_int_1 b) as [m|]; simpl in Hinit; [|done].
  injection Hinit as <-. unfold valid_lines. cbn [cache].
  assert (Hrep : ∀ k, valid_in (replicate k (Block false (-1) (-1))) = 0).
  { induction k as [|k IH]; simpl; [done | by rewrite IH]. }
  induction (seq 0 (Z.to_nat n)) as [|i l IH]; [done|].
  rewrite fmap_cons. cbn [valid_sets arr_blocks]. by rewrite Hrep, IH.
Qed.

Lemma run_fills addrs s b st st' :
  run addrs s b st = Some st' →
  miss st' - evictions st' - valid_lines st'
  = miss st - evictions st - valid_lines st.
Proof.
  apply (run_steps (λ x y, miss y - evictions y - valid_lines y
                           = miss x - evictions x - valid_lines x) s b).
  - done.
  - intros x y z Hxy Hyz. lia.
  - done.
  - apply fills_step.
Qed.

(** X5. At every point of a run (after any number [n] of the accesses
    of a trace, on the cache of a valid configuration) [lri_count] is
    the number of accesses made, which is [hit + miss]; the misses are
    the evictions plus the valid lines of the cache, so that the misses
    without eviction are at most the [2^s * E] lines of the cache. *)
Theorem counters_at_every_point s E b tr n :
  valid_config s E b → Z.of_nat (length (addresses tr)) <= INT_MAX →
  ∃ st0 st,
    cache_init s E b globals0 = Some st0 ∧
    run (take n (addresses tr)) s b st0 = Some st ∧
    lri_count st = Z.of_nat (length (take n (addresses tr))) ∧
    hit st + miss st = lri_count st ∧
    0 <= hit st ∧ 0 <= evictions st ∧
    miss st = evictions st + valid_lines st ∧
    0 <= valid_lines st <= 2 ^ s * E.
Proof.
  intros Hcfg Hlen.
  destruct (point_inv s E b tr n Hcfg Hlen) as (st0 & st & Hst0 & Hrun & Hinv).
  destruct Hinv as ([Hsets Hblocks] & Hc & Hhm & Hh & Hm & He & _).
  exists st0, st. split_and!; try done; try lia.
  - pose proof (run_fills _ _ _ _ _ Hrun) as Hfill.
    rewrite (valid_lines_init _ _ _ _ _ Hst0) in Hfill.
    assert (Hz : miss st0 = 0 ∧ evictions st0 = 0).
    { destruct Hcfg as (Hs & _ & Hb).
      rewrite (cache_init_Some s E b globals0 Hs Hb) in Hst0.
      by injection Hst0 as <-. }
    lia.
  - apply (valid_sets_bounds _ _ Hblocks).
  - pose proof (valid_sets_bounds _ _ Hblocks) as Hbound.
    rewrite Hsets in Hbound. unfold valid_lines.
    destruct Hcfg as (Hs & HE & _).
    assert (0 < 2 ^ s) by (apply Z.pow_pos_nonneg; lia).
    rewrite !Z2Nat.id in Hbound by lia. lia.
Qed.

Lemma counters_at_every_point_witness :
  valid_config 1 2 0 ∧
  Z.of_nat (length (addresses [TraceLine LOAD 0; TraceLine MODIFY 2])) <= INT_MAX ∧
  ∃ st0 st,
    cache_init 1 2 0 globals0 = Some st0 ∧
    run (take 2 (addresses [TraceLine LOAD 0; TraceLine MODIFY 2])) 1 0 st0 = Some st ∧
    lri_count st
    = Z.of_nat (length (take 2 (addresses [TraceLine LOAD 0; TraceLine MODIFY 2]))) ∧
    hit st + miss st = lri_count st ∧
    0 <= hit st ∧ 0 <= evictions st ∧
    miss st = evictions st + valid_lines st ∧
    0 <= valid_lines st <= 2 ^ 1 * 2.
Proof.
  assert (Hcfg : valid_config 1 2 0) by (unfold valid_config; lia).
  split_and!; [exact Hcfg | vm_compute; discriminate |].
  apply (counters_at_every_point 1 2 0 [TraceLine LOAD 0; TraceLine MODIFY 2] 2);
    [exact Hcfg | vm_compute; discriminate].
Defined.

(** ** Least recently used *)

(** The line an access touches, with the tags read as [unsigned int]. *)
Lemma access_touch_u st o st' :
  access_spec st o st' → 0 <= req_tag st < 2 ^ 32 →
  ∃ j old new,
    line_at st (req_set st) j = Some old ∧
    (∀ i' j', line_at st' i' j' =
       if decide (i' = req_set st ∧ j' = j) then Some new else line_at st i' j') ∧
    valid_bit new = true ∧ lri new = lri_count st ∧
    to_uint (tag new) = req_tag st ∧
    ((o = Hit ∧ valid_bit old = true ∧ to_uint (tag old) = req_tag st) ∨
     (o ≠ Hit ∧
      (∀ j' l', line_at st (req_set st) j' = Some l' →
                valid_bit l' = true → to_uint (tag l') ≠ req_tag st) ∧
      (valid_bit old = true →
       (∀ j' l', line_at st (req_set st) j' = Some l' → valid_bit l' = true) ∧
       ∀ j' y, j' ≠ j → line_at st (req_set st) j' = Some y →
               lri old < lri y ∨ (lri old = lri y ∧ (j < j')%nat)))).
Proof.
  intros Hacc Ht.
  inversion Hacc as [cs j l Hcs Hj [Hv Htag] Hfirst
                    |cs j l Hcs Hnohit Hj Hv Hfirst
                    |cs j l Hcs Hnohit Hfull Hj Hmin]; subst.
  - exists j, l, (Block (valid_bit l) (tag l) (lri_count st)).
    split_and!; simpl; try done.
    + unfold line_at. by rewrite Hcs.
    + intros i' j'. apply line_at_store; [done | by eapply lookup_lt_Some].
    + by left.
  - exists j, l, (Block true (to_int (req_tag st)) (lri_count st)).
    split_and!; simpl; try done.
    + unfold line_at. by rewrite Hcs.
    + intros i' j'. apply line_at_store; [done | by eapply lookup_lt_Some].
    + by apply to_uint_to_int.
    + right. split_and!; [done| |congruence].
      intros j' l' Hl' Hv' Heq.
      unfold line_at in Hl'. rewrite Hcs in Hl'. simpl in Hl'.
      by apply (Hnohit j' l' Hl').
  - exists j, l, (Block (valid_bit l) (to_int (req_tag st)) (lri_count st)).
    split_and!; simpl; try done.
    + unfold line_at. by rewrite Hcs.
    + intros i' j'. apply line_at_store; [done | by eapply lookup_lt_Some].
    + by eapply Hfull.
    + by apply to_uint_to_int.
    + right. split_and!; [done| |].
      * intros j' l' Hl' Hv' Heq.
        unfold line_at in Hl'. rewrite Hcs in Hl'. simpl in Hl'.
        by apply (Hnohit j' l' Hl').
      * intros _. split.
        -- intros j' l' Hl'. unfold line_at in Hl'. rewrite Hcs in Hl'.
           simpl in Hl'. by eapply Hfull.
        -- intros j' y Hne Hy. unfold line_at in Hy. rewrite Hcs in Hy.
           simpl in Hy. by apply Hmin.
Qed.

Lemma unique_utags_step st o st' :
  access_spec st o st' → 0 <= req_tag st < 2 ^ 32 →
  unique_utags st → unique_utags st'.
Proof.
  intros Hacc Ht Huniq i j j' x y Hx Hy Hvx Hvy Heq.
  destruct (access_touch_u _ _ _ Hacc Ht)
    as (j0 & old & new & Hold & Hnew & Hv & _ & Htag & Hcase).
  rewrite Hnew in Hx, Hy.
  destruct (decide (i = req_set st ∧ j = j0)) as [[Hi Hj]|Hn1],
           (decide (i = req_set st ∧ j' = j0)) as [[Hi' Hj']|Hn2]; subst.
  - done.
  - injection Hx as <-. destruct Hcase as [(_ & Hvo & Hto)|(_ & Hfresh & _)].
    + symmetry. eapply (Huniq _ j' j0 y old); try done. congruence.
    + exfalso. eapply (Hfresh j' y); try done. congruence.
  - injection Hy as <-. destruct Hcase as [(_ & Hvo & Hto)|(_ & Hfresh & _)].
    + eapply (Huniq _ j j0 x old); try done. congruence.
    + exfalso. eapply (Hfresh j x); try done. congruence.
  - by eapply Huniq.
Qed.

Lemma recent_step T t i E st o st' :
  access_spec st o st' → 0 <= req_tag st < 2 ^ 32 →
  (∀ i cs, cache st !! i = Some cs → length (arr_blocks cs) = E) →
  stamps_below st → unique_recency st → unique_utags st →
  (length T < E)%nat →
  (req_set st = i → req_tag st = t ∨ req_tag st ∈ T) →
  recent T t i st → recent T t i st'.
Proof.
  intros Hacc Ht Hlen Hbelow Hur Hut HT Hreq (j & x & Hx & Hvx & Htx & Hlater).
  destruct (access_touch_u _ _ _ Hacc Ht)
    as (j0 & old & new & Hold & Hnew & Hv & Hstamp & Htag & Hcase).
  destruct (decide (req_set st = i)) as [Hi|Hi]; cycle 1.
  { exists j, x. split_and!; try done.
    - rewrite Hnew, decide_False; [done | intros [? ?]; congruence].
    - intros j' y Hne Hy. rewrite Hnew, decide_False in Hy; [|intros [? ?]; congruence].
      by apply (Hlater j' y). }
  subst i. specialize (Hreq eq_refl).
  destruct (decide (j0 = j)) as [->|Hj0].
  - (* the line of [t] is the one touched *)
    assert (old = x) as -> by congruence.
    destruct Hcase as [(_ & _ & Hto)|(_ & Hfresh & Hvictim)].
    + exists j, new. split_and!; try done.
      * rewrite Hnew. by rewrite decide_True.
      * congruence.
      * intros j' y Hne Hy _ Hlt. exfalso.
        rewrite Hnew, decide_False in Hy by (intros [? ?]; congruence).
        specialize (Hbelow _ _ _ Hy). lia.
    + exfalso. destruct (Hvictim Hvx) as [Hfull Hmin].
      assert (Ht' : req_tag st ∈ T).
      { destruct Hreq as [Heq|?]; [|done]. exfalso.
        apply (Hfresh j x Hx Hvx). congruence. }
      unfold line_at in Hx.
      destruct (cache st !! req_set st) as [cs|] eqn:Hcs; simpl in Hx; [|done].
      assert (Hline : ∀ k, line_at st (req_set st) k = arr_blocks cs !! k).
      { intros k. unfold line_at. by rewrite Hcs. }
      assert (Hsub : req_tag st :: ((λ l, to_uint (tag l)) <$> arr_blocks cs) ⊆+ t :: T).
      { apply NoDup_submseteq.
        - apply NoDup_cons_2.
          + intros Hin. apply list_elem_of_fmap in Hin as (y & Hy & Hin).
            apply list_elem_of_lookup in Hin as [k Hk].
            rewrite <- Hline in Hk. eapply (Hfresh k y); eauto.
          + apply NoDup_alt. intros k1 k2 v Hk1 Hk2.
            apply list_lookup_fmap_Some in Hk1 as (y1 & -> & Hy1).
            apply list_lookup_fmap_Some in Hk2 as (y2 & Heq & Hy2).
            rewrite <- Hline in Hy1, Hy2. eapply Hut; eauto.
        - intros v Hin. apply elem_of_cons in Hin as [->|Hin].
          { by apply elem_of_cons; right. }
          apply list_elem_of_fmap in Hin as (y & -> & Hin).
          apply list_elem_of_lookup in Hin as [k Hk]. rewrite <- Hline in Hk.
          destruct (decide (k = j)) as [->|Hkj].
          + rewrite Hline in Hk. assert (y = x) as -> by congruence.
            apply elem_of_cons. by left.
          + apply elem_of_cons. right. apply (Hlater k y); eauto.
            destruct (Hmin k y Hkj Hk) as [?|[Heq _]]; [done|].
            rewrite <- Hline in Hx.
            destruct (Hur _ _ _ _ _ _ Hx Hk Hvx (Hfull _ _ Hk) Heq) as [_ ?].
            congruence. }
      apply submseteq_length in Hsub. simpl in Hsub.
      rewrite length_fmap, (Hlen _ _ Hcs) in Hsub. lia.
  - (* another line of the set is touched *)
    assert (Ht' : req_tag st ∈ T).
    { destruct Hreq as [Heq|?]; [|done]. exfalso.
      destruct Hcase as [(_ & Hvo & Hto)|(_ & Hfresh & _)].
      - apply Hj0. eapply (Hut _ j0 j old x); try done. congruence.
      - apply (Hfresh j x Hx Hvx). congruence. }
    exists j, x. split_and!; try done.
    + rewrite Hnew, decide_False; [done | intros [? ?]; congruence].
    + intros j' y Hne Hy Hvy Hlt. rewrite Hnew in Hy.
      destruct (decide _) as [[_ ->]|_].
      * injection Hy as <-. by rewrite Htag.
      * by apply (Hlater j' y).
Qed.

Lemma unique_utags_init s E b st st0 :
  cache_init s E b st = Some st0 → unique_utags st0.
Proof.
  intros Hinit i j j' x y Hx Hy Hvx.
  by rewrite (line_at_init _ _ _ _ _ _ _ _ Hinit Hx) in Hvx.
Qed.

(** The request [parse_address] leaves for an address. *)
Lemma parse_address_request a s b st st1 :
  0 <= s → 0 <= b → s + b < 64 →
  parse_address a s b st = Some st1 →
  st1 = set_tag_index st (tag_of a s b, set_of a s b).
Proof.
  intros Hs Hb Hsb. rewrite parse_address_Some by done. by intros [= <-].
Qed.

Lemma inv_u_access s E b k a st :
  valid_config s E b → inv s E k st → unique_utags st → k < INT_MAX →
  ∃ o st',
    access_spec (set_tag_index st (tag_of a s b, set_of a s b)) o st' ∧
    access a s b st = Some st' ∧ inv s E (k + 1) st' ∧ unique_utags st'.
Proof.
  intros Hcfg Hinv Hut Hk.
  destruct (inv_access s E b k a st Hcfg Hinv Hk)
    as (st1 & o & st' & Hst1 & _ & _ & Ht & _ & Hacc & Haccess & Hinv').
  destruct Hcfg as (Hs & _ & Hb).
  apply parse_address_request in Hst1 as ->; [|lia..].
  exists o, st'. split_and!; try done.
  by apply (unique_utags_step _ _ _ Hacc Ht).
Qed.

Lemma inv_u_run s E b addrs :
  valid_config s E b →
  ∀ k st, inv s E k st → unique_utags st →
  k + Z.of_nat (length addrs) <= INT_MAX →
  ∃ st', run addrs s b st = Some st' ∧
         inv s E (k + Z.of_nat (length addrs)) st' ∧ unique_utags st'.
Proof.
  intros Hcfg. induction addrs as [|a addrs IH]; intros k st Hinv Hut Hk;
    cbn [run length] in *.
  - exists st. split; [done|]. by rewrite Z.add_0_r.
  - destruct (inv_u_access s E b k a st Hcfg Hinv Hut) as (o & st' & _ & -> & Hinv' & Hut');
      [lia|].
    simpl. destruct (IH (k + 1) st' Hinv' Hut') as (st'' & Hrun & Hinv'' & Hut''); [lia|].
    exists st''. split; [done|].
    replace (k + Z.of_nat (S (length addrs)))
      with (k + 1 + Z.of_nat (length addrs)) by lia. done.
Qed.

Lemma recent_run s E b T a others :
  valid_config s E b → Z.of_nat (length T) < E →
  (∀ a', a' ∈ others → set_of a' s b = set_of a s b →
         tag_of a' s b = tag_of a s b ∨ tag_of a' s b ∈ T) →
  ∀ k st, inv s E k st → unique_utags st →
  recent T (tag_of a s b) (Z.to_nat (set_of a s b)) st →
  k + Z.of_nat (length others) <= INT_MAX →
  ∃ st', run others s b st = Some st' ∧
         inv s E (k + Z.of_nat (length others)) st' ∧ unique_utags st' ∧
         recent T (tag_of a s b) (Z.to_nat (set_of a s b)) st'.
Proof.
  intros Hcfg HT. induction others as [|a' others IH];
    intros Hothers k st Hinv Hut Hrec Hk; cbn [run length] in *.
  - exists st. split; [done|]. by rewrite Z.add_0_r.
  - destruct (inv_u_access s E b k a' st Hcfg Hinv Hut)
      as (o & st' & Hacc & -> & Hinv' & Hut'); [lia|].
    assert (Hrec' : recent T (tag_of a s b) (Z.to_nat (set_of a s b)) st').
    { destruct Hinv as ([_ Hblocks] & _ & _ & _ & _ & _ & Hbelow & Hur & _).
      eapply (recent_step T _ _ (Z.to_nat E) _ _ _ Hacc); try done.
      - apply to_uint_range.
      - lia.
      - unfold req_set, req_tag. simpl. intros Hset.
        apply Hothers; [by apply elem_of_cons; left|].
        pose proof (to_uint_range (Z.land (Z.shiftr a' b) (Z.ones s))).
        pose proof (to_uint_range (Z.land (Z.shiftr a b) (Z.ones s))).
        unfold set_of in *. lia. }
    simpl. destruct (IH (λ x Hx, Hothers x (list_elem_of_further _ _ _ Hx))
                        (k + 1) st' Hinv' Hut' Hrec')
      as (st'' & Hrun & Hinv'' & Hut'' & Hrec''); [lia|].
    exists st''. split; [done|].
    replace (k + Z.of_nat (S (length others)))
      with (k + 1 + Z.of_nat (length others)) by lia. done.
Qed.

(** X6. Least recently used.  After an access to an address, the next
    access to it is a hit, whatever happened before, as long as the
    accesses in between that go to its set use, apart from its own tag,
    only the tags of a list [T] with fewer than [E] entries. *)
Theorem lru_recent_address_hits s E b tr a others T :
  valid_config s E b → Z.of_nat (length T) < E →
  (∀ a', a' ∈ others → set_of a' s b = set_of a s b →
         tag_of a' s b = tag_of a s b ∨ tag_of a' s b ∈ T) →
  Z.of_nat (length (addresses tr)) + Z.of_nat (length others) + 2 <= INT_MAX →
  ∃ st0 st1 st2,
    cache_init s E b globals0 = Some st0 ∧
    run (addresses tr ++ a :: others) s b st0 = Some st1 ∧
    access a s b st1 = Some st2 ∧
    hit st2 = hit st1 + 1 ∧ miss st2 = miss st1 ∧
    evictions st2 = evictions st1.
Proof.
  intros Hcfg HT Hothers Hlen.
  destruct (inv_init s E b Hcfg) as (st0 & Hst0 & Hinv0).
  pose proof (unique_utags_init _ _ _ _ _ Hst0) as Hut0.
  destruct (inv_u_run s E b (addresses tr) Hcfg 0 st0 Hinv0 Hut0)
    as (sta & Hruna & Hinva & Huta); [lia|].
  destruct (inv_u_access s E b _ a sta Hcfg Hinva Huta)
    as (o & stb & Hacc & Haccess & Hinvb & Hutb); [lia|].
  assert (Hrec : recent T (tag_of a s b) (Z.to_nat (set_of a s b)) stb).
  { destruct (access_touch_u _ _ _ Hacc (to_uint_range _))
      as (j & old & new & _ & Hnew & Hv & Hstamp & Htag & _).
    exists j, new. split_and!; try done.
    - rewrite Hnew. by rewrite decide_True.
    - intros j' y Hne Hy _ Hlt. exfalso.
      rewrite Hnew, decide_False in Hy by (intros [? ?]; congruence).
      destruct Hinva as (_ & _ & _ & _ & _ & _ & Hbelow & _).
      specialize (Hbelow _ _ _ Hy). simpl in Hstamp. lia. }
  destruct (recent_run s E b T a others Hcfg HT Hothers _ stb Hinvb Hutb Hrec)
    as (st1 & Hrun1 & Hinv1 & Hut1 & Hrec1); [lia|].
  destruct (inv_u_access s E b _ a st1 Hcfg Hinv1 Hut1)
    as (o2 & st2 & Hacc2 & Haccess2 & _); [lia|].
  exists st0, st1, st2. split_and!; try done.
  - rewrite run_app, Hruna. simpl. rewrite Haccess. simpl. done.
  - destruct Hrec1 as (j & x & Hx & Hvx & Htx & _).
    destruct (access_touch_u _ _ _ Hacc2 (to_uint_range _))
      as (_ & _ & _ & _ & _ & _ & _ & _ & [(-> & _)|(_ & Hfresh & _)]).
    + by inversion Hacc2.
    + exfalso. by apply (Hfresh j x Hx Hvx).
  - destruct Hrec1 as (j & x & Hx & Hvx & Htx & _).
    destruct (access_touch_u _ _ _ Hacc2 (to_uint_range _))
      as (_ & _ & _ & _ & _ & _ & _ & _ & [(-> & _)|(_ & Hfresh & _)]).
    + by inversion Hacc2.
    + exfalso. by apply (Hfresh j x Hx Hvx).
  - destruct Hrec1 as (j & x & Hx & Hvx & Htx & _).
    destruct (access_touch_u _ _ _ Hacc2 (to_uint_range _))
      as (_ & _ & _ & _ & _ & _ & _ & _ & [(-> & _)|(_ & Hfresh & _)]).
    + by inversion Hacc2.
    + exfalso. by apply (Hfresh j x Hx Hvx).
Qed.

Lemma lru_recent_address_hits_witness :
  valid_config 0 2 0 ∧ Z.of_nat (length [2]) < 2 ∧
  ∃ st0 st1 st2,
    cache_init 0 2 0 globals0 = Some st0 ∧
    run (addresses [TraceLine LOAD 7] ++ 1 :: [2; 2; 1]) 0 0 st0 = Some st1 ∧
    access 1 0 0 st1 = Some st2 ∧
    hit st2 = hit st1 + 1 ∧ miss st2 = miss st1 ∧
    evictions st2 = evictions st1.
Proof.
  assert (Hcfg : valid_config 0 2 0) by (unfold valid_config; lia).
  split_and!; [exact Hcfg | simpl; lia |].
  apply (lru_recent_address_hits 0 2 0 [TraceLine LOAD 7] 1 [2; 2; 1] [2]);
    [exact Hcfg | simpl; lia | | vm_compute; discriminate].
  intros a' Hin _.
  apply elem_of_cons in Hin as [->|Hin]; [right; apply list_elem_of_here|].
  apply elem_of_cons in Hin as [->|Hin]; [right; apply list_elem_of_here|].
  apply elem_of_cons in Hin as [->|Hin]; [by left|].
  by apply elem_of_nil in Hin.
Defined.

(** ** Kinds of trace lines *)

(** X7. The kind of a line matters only through the number of
    accesses: within any trace, a STORE line does what a LOAD line at
    the same address does, and a MODIFY line does what a LOAD line
    followed by a STORE line at the same address do. *)
Theorem parse_trace_kinds tr tr' a s b st :
  parse_trace (tr ++ TraceLine STORE a :: tr') s b st
  = parse_trace (tr ++ TraceLine LOAD a :: tr') s b st ∧
  parse_trace (tr ++ TraceLine MODIFY a :: tr') s b st
  = parse_trace (tr ++ TraceLine LOAD a :: TraceLine STORE a :: tr') s b st.
Proof.
  rewrite !parse_trace_run. unfold addresses.
  by rewrite !bind_app, !bind_cons.
Qed.

(** ** The range of the request *)

(** X8. For a 64-bit address and [s, b >= 0] with [s + b < 64],
    [parse_address] changes [tag_index] only; the set index it leaves
    is below [2^s], the number of sets [cache_init] makes, and the tag
    is below [2^32] and below [2^(64 - s - b)]. *)
Theorem parse_address_range a s b st :
  0 <= a < 2 ^ 64 → 0 <= s → 0 <= b → s + b < 64 →
  ∃ st1,
    parse_address a s b st = Some st1 ∧
    st1 = set_tag_index st (tag_index st1) ∧
    0 <= (tag_index st1).2 < 2 ^ s ∧ (tag_index st1).2 < 2 ^ 32 ∧
    0 <= (tag_index st1).1 < 2 ^ 32 ∧ (tag_index st1).1 < 2 ^ (64 - s - b).
Proof.
  intros Ha Hs Hb Hsb. rewrite parse_address_Some by done.
  eexists. split; [done|]. simpl.
  pose proof (to_uint_range (Z.land (Z.shiftr a b) (Z.ones s))) as Hi.
  pose proof (to_uint_range (Z.shiftr a (s + b))) as Ht.
  assert (Hps : 0 < 2 ^ s) by (apply Z.pow_pos_nonneg; lia).
  assert (Hpsb : 0 < 2 ^ (s + b)) by (apply Z.pow_pos_nonneg; lia).
  assert (Hidx : to_uint (Z.land (Z.shiftr a b) (Z.ones s)) < 2 ^ s).
  { unfold to_uint. rewrite Z.land_ones by done.
    pose proof (Z.mod_pos_bound (Z.shiftr a b) (2 ^ s) Hps) as Hm.
    pose proof (Z.mod_le (Z.shiftr a b mod 2 ^ s) (2 ^ 32)). lia. }
  assert (Htag : to_uint (Z.shiftr a (s + b)) < 2 ^ (64 - s - b)).
  { unfold to_uint. rewrite Z.shiftr_div_pow2 by lia.
    assert (Hq : 0 <= a / 2 ^ (s + b) < 2 ^ (64 - s - b)).
    { split; [apply Z.div_pos; lia|].
      apply Z.div_lt_upper_bound; [done|].
      rewrite <- Z.pow_add_r by lia.
      replace (s + b + (64 - s - b)) with 64 by lia. lia. }
    pose proof (Z.mod_le (a / 2 ^ (s + b)) (2 ^ 32)). lia. }
  split_and!; try done; lia.
Qed.

Lemma parse_address_range_witness :
  0 <= 6 < 2 ^ 64 ∧ 0 <= 1 ∧ 1 + 1 < 64 ∧
  ∃ st1,
    parse_address 6 1 1 globals0 = Some st1 ∧
    st1 = set_tag_index globals0 (tag_index st1) ∧
    0 <= (tag_index st1).2 < 2 ^ 1 ∧ (tag_index st1).2 < 2 ^ 32 ∧
    0 <= (tag_index st1).1 < 2 ^ 32 ∧ (tag_index st1).1 < 2 ^ (64 - 1 - 1).
Proof.
  split_and!; [lia..|]. apply (parse_address_range 6 1 1 globals0); lia.
Defined.

(** * Properties of the trace reader *)

(** ** [fgets] and the loop *)

Lemma fgets_app n fp l rest : fgets n fp = (l, rest) → l ++ rest = fp.
Proof.
  revert fp l rest. induction n as [|n IH]; intros [|c fp] l rest H; simpl in H;
    try (by injection H as <- <-).
  destruct (Ascii.eqb c newline).
  - by injection H as <- <-.
  - destruct (fgets n fp) as [l' rest'] eqn:Hf. injection H as <- <-.
    simpl. f_equal. by apply IH.
Qed.

Lemma fgets_nonempty n c fp l rest :
  fgets (S n) (c :: fp) = (l, rest) → l ≠ [].
Proof.
  simpl. destruct (Ascii.eqb c newline).
  - by intros [= <- _].
  - destruct (fgets n fp). by intros [= <- _].
Qed.

Lemma fgets_shorter n c fp l rest :
  fgets (S n) (c :: fp) = (l, rest) → (length rest < length (c :: fp))%nat.
Proof.
  intros H. pose proof (fgets_nonempty _ _ _ _ _ H) as Hne.
  apply fgets_app in H. rewrite <- H, length_app.
  destruct l; [done | simpl; lia].
Qed.

(** The characters up to a newline are read in one call when they fit. *)
Lemma fgets_line n l fp :
  Forall (λ c, c ≠ newline) l → (length l < n)%nat →
  fgets n (l ++ newline :: fp) = (l ++ [newline], fp).
Proof.
  revert n. induction l as [|c l IH]; intros [|n] Hl Hn; simpl in *; try lia.
  - done.
  - apply Forall_cons in Hl as [Hc Hl].
    destruct (Ascii.eqb_spec c newline); [done|].
    rewrite IH by (done || lia). done.
Qed.

(** A call stops after [n] characters without a newline. *)
Lemma fgets_full n l fp :
  Forall (λ c, c ≠ newline) l → length l = n → fgets n (l ++ fp) = (l, fp).
Proof.
  revert n. induction l as [|c l IH]; intros [|n] Hl Hn; simpl in *; try lia.
  - done.
  - apply Forall_cons in Hl as [Hc Hl].
    destruct (Ascii.eqb_spec c newline); [done|].
    rewrite IH by (done || lia). done.
Qed.

(** The size of the file is fuel enough. *)
Lemma read_lines_fuel fuel fp :
  (length fp <= fuel)%nat → read_lines fuel fp = read_lines (length fp) fp.
Proof.
  assert (H : ∀ m fp f1 f2, (length fp <= m)%nat →
    (length fp <= f1)%nat → (length fp <= f2)%nat →
    read_lines f1 fp = read_lines f2 fp).
  { induction m as [|m IH]; intros [|c fp'] f1 f2 Hm H1 H2; simpl in *; try done;
      try lia; destruct f1, f2; try done; try lia.
    cbn [read_lines].
    destruct (fgets 16 (c :: fp')) as [l rest] eqn:Hf.
    pose proof (fgets_shorter _ _ _ _ _ Hf) as Hlt. simpl in Hlt.
    destruct (read_line l); simpl; [|done].
    by rewrite (IH rest f1 f2) by lia. }
  intros Hle. by apply (H (length fp)).
Qed.

(** ** The array [trace] *)

Lemma read_line_event l tl : read_line l = Some (Some tl) → (2 <= length l)%nat.
Proof.
  unfold read_line. destruct l as [|c0 [|c1 l]]; simpl; try done; lia.
Qed.

Lemma read_lines_count fuel fp trace :
  read_lines fuel fp = Some trace → (2 * length trace <= length fp)%nat.
Proof.
  revert fp trace. induction fuel as [|fuel IH]; intros [|c fp] trace H;
    cbn [read_lines] in H; try done; try (injection H as <-; simpl; lia).
  destruct (fgets 16 (c :: fp)) as [l rest] eqn:Hf.
  destruct (read_line l) as [line|] eqn:Hl; simpl in H; [|done].
  destruct (read_lines fuel rest) as [tr|] eqn:Hr; simpl in H; [|done].
  injection H as <-. apply IH in Hr.
  apply fgets_app in Hf. rewrite <- Hf, length_app.
  destruct line as [tl|]; simpl; [|lia].
  apply read_line_event in Hl. lia.
Qed.

Lemma read_trace_Some fp trace :
  fp ≠ [] → read_lines (length fp) fp = Some trace →
  read_trace (Some fp) = Some (Some trace).
Proof.
  intros Hne Hread.
  pose proof (read_lines_count _ _ _ Hread) as Hcount.
  unfold read_trace. rewrite Hread. simpl.
  destruct (Nat.ltb_spec (length trace) (length fp)) as [|Hge]; [done|].
  destruct fp; [done | simpl in *; lia].
Qed.

(** X9. The array [trace] is never overrun on a file that is not
    empty: the lines put in the trace are at most half as many as the
    characters of the file, so they and the end mark fit the [size]
    entries.  On the empty file the end mark is written to an array
    without entries, and without a file the program exits. *)
Theorem read_trace_fits :
  (∀ fp trace,
     fp ≠ [] → read_lines (length fp) fp = Some trace →
     read_trace (Some fp) = Some (Some trace) ∧
     (2 * length trace <= length fp)%nat) ∧
  read_trace (Some []) = None ∧
  read_trace None = Some None.
Proof.
  split_and!; try done.
  intros fp trace Hne Hread. split.
  - by apply read_trace_Some.
  - by eapply read_lines_count.
Qed.

(** ** Hexadecimal digits *)

Lemma hex_char_props d :
  0 <= d < 16 →
  hex_digit (hex_char d) = Some d ∧ isspace (hex_char d) = false ∧
  kind_of (hex_char d) = None ∧
  hex_char d ≠ NUL ∧ hex_char d ≠ newline ∧ hex_char d ≠ ","%char ∧
  hex_char d ≠ " "%char ∧ hex_char d ≠ "-"%char ∧ hex_char d ≠ "+"%char ∧
  hex_char d ≠ "x"%char ∧ hex_char d ≠ "X"%char.
Proof.
  intros Hd.
  assert (Hcases : d = 0 ∨ d = 1 ∨ d = 2 ∨ d = 3 ∨ d = 4 ∨ d = 5 ∨ d = 6 ∨ d = 7 ∨
                   d = 8 ∨ d = 9 ∨ d = 10 ∨ d = 11 ∨ d = 12 ∨ d = 13 ∨ d = 14 ∨
                   d = 15) by lia.
  repeat (destruct Hcases as [->|Hcases]); [..|subst d];
    (split_and!; [reflexivity..|discriminate|discriminate|discriminate|discriminate
                 |discriminate|discriminate|discriminate|discriminate]).
Qed.

Lemma length_hex_digits n a : length (hex_digits n a) = n.
Proof. induction n as [|n IH]; simpl; [done | by rewrite IH]. Qed.

Lemma hex_digits_chars n a :
  Forall (λ c, ∃ d, 0 <= d < 16 ∧ c = hex_char d) (hex_digits n a).
Proof.
  induction n as [|n IH]; simpl; [done|]. apply Forall_cons. split; [|done].
  eexists. split; [|done]. apply Z.mod_pos_bound. lia.
Qed.

Lemma hex_value_digits n a acc rest :
  0 <= a →
  hex_value acc (hex_digits n a ++ rest)
  = hex_value (acc * 16 ^ Z.of_nat n + a mod 16 ^ Z.of_nat n) rest.
Proof.
  intros Ha. revert acc. induction n as [|n IH]; intros acc.
  - simpl. f_equal. rewrite Z.mod_1_r. lia.
  - cbn [hex_digits app hex_value].
    assert (Hd : 0 <= (a / 16 ^ Z.of_nat n) mod 16 < 16) by (apply Z.mod_pos_bound; lia).
    destruct (hex_char_props _ Hd) as (-> & _).
    rewrite IH. f_equal.
    assert (Hp : 0 < 16 ^ Z.of_nat n) by (apply Z.pow_pos_nonneg; lia).
    replace (16 ^ Z.of_nat (S n)) with (16 ^ Z.of_nat n * 16)
      by (rewrite Nat2Z.inj_succ, Z.pow_succ_r by lia; lia).
    rewrite (Z.rem_mul_r a (16 ^ Z.of_nat n) 16) by lia. lia.
Qed.

(** A number written with 1 to 16 digits is read back by [strtoul]. *)
Lemma strtoul_16_hex_digits n a :
  (1 <= n <= 16)%nat → 0 <= a < 16 ^ Z.of_nat n →
  strtoul_16 (hex_digits n a) = a.
Proof.
  intros Hn Ha.
  assert (Hmax : 16 ^ Z.of_nat n <= 2 ^ 64).
  { change (2 ^ 64) with (16 ^ 16). apply Z.pow_le_mono_r; lia. }
  assert (Hval : hex_value 0 (hex_digits n a) = a).
  { rewrite <- (app_nil_r (hex_digits n a)), hex_value_digits by lia.
    simpl. rewrite Z.mod_small by lia. lia. }
  pose proof (hex_digits_chars n a) as Hchars.
  unfold strtoul_16.
  destruct (hex_digits n a) as [|c0 hex] eqn:Hhex.
  { apply (f_equal length) in Hhex. rewrite length_hex_digits in Hhex.
    simpl in Hhex. lia. }
  apply Forall_cons in Hchars as [(d0 & Hd0 & ->) Hchars].
  destruct (hex_char_props _ Hd0)
    as (_ & Hsp & _ & _ & _ & _ & _ & Hminus & Hplus & _).
  cbn [skip_space]. rewrite Hsp.
  rewrite (proj2 (Ascii.eqb_neq _ _) Hminus), (proj2 (Ascii.eqb_neq _ _) Hplus).
  assert (Hprefix :
    match hex_char d0 :: hex with
    | z :: x :: d :: r =>
        if Ascii.eqb z "0" && (Ascii.eqb x "x" || Ascii.eqb x "X")
           && bool_decide (is_Some (hex_digit d))
        then d :: r else hex_char d0 :: hex
    | _ => hex_char d0 :: hex
    end = hex_char d0 :: hex).
  { destruct hex as [|c1 [|c2 hex']]; try done.
    apply Forall_cons in Hchars as [(d1 & Hd1 & ->) _].
    destruct (hex_char_props _ Hd1)
      as (_ & _ & _ & _ & _ & _ & _ & _ & _ & Hx & HX).
    rewrite (proj2 (Ascii.eqb_neq _ _) Hx), (proj2 (Ascii.eqb_neq _ _) HX).
    by rewrite andb_false_r. }
  rewrite Hprefix, Hval. unfold ULONG_MAX.
  destruct (Z.ltb_spec (2 ^ 64 - 1) a); [lia | done].
Qed.

(** ** One line of the file *)

Lemma c_string_id l : Forall (λ c, c ≠ NUL) l → c_string l = l.
Proof.
  induction l as [|c l IH]; intros Hl; simpl; [done|].
  apply Forall_cons in Hl as [Hc Hl].
  rewrite (proj2 (Ascii.eqb_neq _ _) Hc). by rewrite IH.
Qed.

Lemma until_char_token d token tail :
  Forall (λ c, c ≠ d) token → (tail = [] ∨ ∃ t, tail = d :: t) →
  (until_char d (token ++ tail)).1 = token.
Proof.
  intros Htoken Htail. induction token as [|c token IH]; simpl.
  - destruct Htail as [->|(t & ->)]; simpl; [done|]. by rewrite Ascii.eqb_refl.
  - apply Forall_cons in Htoken as [Hc Htoken].
    rewrite (proj2 (Ascii.eqb_neq _ _) Hc).
    specialize (IH Htoken). destruct (until_char d (token ++ tail)). simpl in *.
    by rewrite IH.
Qed.

Lemma kind_char_props ty :
  kind_of (kind_char ty) = Some ty ∧ kind_char ty ≠ " "%char ∧
  kind_char ty ≠ NUL ∧ kind_char ty ≠ newline.
Proof. by destruct ty. Qed.

Lemma is_digit_props c :
  is_digit c → kind_of c = None ∧ c ≠ NUL ∧ c ≠ newline.
Proof.
  unfold is_digit, kind_of. intros Hc.
  split_and!.
  - destruct (Ascii.eqb_spec c "L") as [->|_]; [simpl in Hc; lia|].
    destruct (Ascii.eqb_spec c "S") as [->|_]; [simpl in Hc; lia|].
    destruct (Ascii.eqb_spec c "M") as [->|_]; [simpl in Hc; lia|]. done.
  - intros ->. simpl in Hc. lia.
  - intros ->. simpl in Hc. lia.
Qed.

Lemma read_line_skipped l : kind_of (nth 1 l NUL) = None → read_line l = Some None.
Proof. unfold read_line. by intros ->. Qed.

Lemma strtok_first k rest :
  k ≠ " "%char →
  strtok " " (" "%char :: k :: " "%char :: rest) = Some ([k], rest).
Proof.
  intros Hk. unfold strtok. cbn [skip_char until_char].
  rewrite Ascii.eqb_refl, (proj2 (Ascii.eqb_neq _ _) Hk).
  cbn [until_char]. by rewrite Ascii.eqb_refl, (proj2 (Ascii.eqb_neq _ _) Hk).
Qed.

Lemma strtok_token d token tail :
  token ≠ [] → Forall (λ c, c ≠ d) token → (tail = [] ∨ ∃ t, tail = d :: t) →
  fst <$> strtok d (token ++ tail) = Some token.
Proof.
  intros Hne Htoken Htail.
  pose proof (until_char_token d _ _ Htoken Htail) as Hfst.
  destruct token as [|c token]; [done|].
  apply Forall_cons in Htoken as [Hc _].
  unfold strtok. cbn [app skip_char]. rewrite (proj2 (Ascii.eqb_neq _ _) Hc).
  cbn [fmap option_fmap option_map]. cbn [app] in Hfst. by rewrite Hfst.
Qed.

(** A data line, whatever follows the digits of the address in the
    characters read. *)
Lemma read_line_data ty n a tail :
  (1 <= n <= 16)%nat → 0 <= a < 16 ^ Z.of_nat n →
  Forall (λ c, c ≠ NUL) tail → (tail = [] ∨ ∃ t, tail = ","%char :: t) →
  read_line (" "%char :: kind_char ty :: " "%char :: hex_digits n a ++ tail)
  = Some (Some (TraceLine ty a)).
Proof.
  intros Hn Ha Hnul Htail.
  destruct (kind_char_props ty) as (Hkind & Hsp & Hk0 & _).
  pose proof (hex_digits_chars n a) as Hchars.
  assert (Hhexnul : Forall (λ c, c ≠ NUL) (hex_digits n a)).
  { eapply Forall_impl; [exact Hchars|]. intros c (d & Hd & ->).
    by destruct (hex_char_props _ Hd) as (_ & _ & _ & ? & _). }
  assert (Hhexcomma : Forall (λ c, c ≠ ","%char) (hex_digits n a)).
  { eapply Forall_impl; [exact Hchars|]. intros c (d & Hd & ->).
    by destruct (hex_char_props _ Hd) as (_ & _ & _ & _ & _ & ? & _). }
  unfold read_line. cbn [nth]. rewrite Hkind.
  rewrite c_string_id by (repeat (apply Forall_cons; split; [done|]); by apply Forall_app).
  rewrite strtok_first by done. cbn [mbind option_bind].
  rewrite strtok_token; try done.
  - by rewrite (strtoul_16_hex_digits n a Hn Ha).
  - intros Hnil. apply (f_equal length) in Hnil.
    rewrite length_hex_digits in Hnil. simpl in Hnil. lia.
Qed.

(** ** Line after line *)

(** The loop with the size of the file as fuel, one call of [fgets]
    unfolded. *)
Lemma read_lines_unfold fp :
  fp ≠ [] →
  read_lines (length fp) fp =
    line ← read_line (fgets 16 fp).1;
    trace ← read_lines (length (fgets 16 fp).2) (fgets 16 fp).2;
    Some (match line with Some tl => tl :: trace | None => trace end).
Proof.
  destruct fp as [|c fp]; [done|]. intros _.
  cbn [length read_lines].
  destruct (fgets 16 (c :: fp)) as [l rest] eqn:Hf.
  pose proof (fgets_shorter _ _ _ _ _ Hf) as Hlt. cbn [length] in Hlt.
  cbn [fst snd]. destruct (read_line l); simpl; [|done].
  by rewrite (read_lines_fuel (length fp) rest) by lia.
Qed.

Lemma nth_Forall {A} (P : A → Prop) i l d : Forall P l → P d → P (nth i l d).
Proof.
  intros Hl Hd. revert i. induction Hl as [|x l Hx Hl IH]; intros [|i]; simpl; auto.
Qed.

(** A line up to 32 characters long that starts with two characters,
    a space and 1 to 13 digits is read in one or two calls of [fgets];
    [line] is what the characters of the first call give, and those of
    the second give nothing. *)
Lemma read_lines_two_calls c0 k n a rest line fp :
  c0 ≠ newline → k ≠ newline → (1 <= n <= 13)%nat →
  Forall (λ c, c ≠ newline ∧ kind_of c = None) rest →
  (length rest <= 15)%nat →
  ((length rest + n + 3 < 16)%nat →
   read_line (c0 :: k :: " "%char :: hex_digits n a ++ rest ++ [newline])
   = Some line) →
  ((16 <= length rest + n + 3)%nat →
   read_line (c0 :: k :: " "%char :: hex_digits n a ++ take (13 - n) rest)
   = Some line) →
  read_lines
    (length ((c0 :: k :: " "%char :: hex_digits n a ++ rest ++ [newline]) ++ fp))
    ((c0 :: k :: " "%char :: hex_digits n a ++ rest ++ [newline]) ++ fp)
  = (λ trace, match line with Some tl => tl :: trace | None => trace end)
      <$> read_lines (length fp) fp.
Proof.
  intros Hc0 Hk Hn Hrest Hlen Hshort_line Hlong_line.
  pose proof (hex_digits_chars n a) as Hchars.
  assert (Hrest_nl : Forall (λ c, c ≠ newline) rest).
  { eapply Forall_impl; [exact Hrest|]. by intros c [? _]. }
  assert (Hrest_kind : Forall (λ c, kind_of c = None) rest).
  { eapply Forall_impl; [exact Hrest|]. by intros c [_ ?]. }
  assert (Hhex_nl : Forall (λ c, c ≠ newline) (hex_digits n a)).
  { eapply Forall_impl; [exact Hchars|]. intros c (d & Hd & ->).
    by destruct (hex_char_props _ Hd) as (_ & _ & _ & _ & ? & _). }
  set (head := c0 :: k :: " "%char :: hex_digits n a).
  assert (Hhead_nl : Forall (λ c, c ≠ newline) head).
  { by repeat (apply Forall_cons; split; [done|]). }
  assert (Hhead_len : length head = (n + 3)%nat).
  { unfold head. simpl. rewrite length_hex_digits. lia. }
  assert (Hfile : (c0 :: k :: " "%char :: hex_digits n a ++ rest ++ [newline]) ++ fp
                  = (head ++ rest) ++ newline :: fp).
  { unfold head. cbn [app]. do 3 f_equal. by rewrite <- !app_assoc. }
  rewrite Hfile.
  rewrite read_lines_unfold by (unfold head; done).
  destruct (decide (length (head ++ rest) < 16)%nat) as [Hshort|Hlong].
  - rewrite fgets_line by (done || by apply Forall_app). cbn [fst snd].
    replace ((head ++ rest) ++ [newline])
      with (c0 :: k :: " "%char :: hex_digits n a ++ (rest ++ [newline]))
      by (unfold head; simpl; by rewrite <- !app_assoc).
    rewrite Hshort_line; [done|]. rewrite length_app in Hshort. lia.
  - assert (Hsplit : (head ++ rest) ++ newline :: fp
                     = (head ++ take (13 - n) rest)
                         ++ (drop (13 - n) rest ++ newline :: fp)).
    { rewrite <- (take_drop (13 - n) rest) at 1. by rewrite <- !app_assoc. }
    rewrite Hsplit.
    assert (Htake_len : length (take (13 - n) rest) = (13 - n)%nat).
    { rewrite length_take. rewrite length_app in Hlong. lia. }
    rewrite fgets_full; cycle 1.
    { apply Forall_app. split; [done|]. by apply Forall_take. }
    { rewrite length_app. lia. }
    cbn [fst snd].
    replace (head ++ take (13 - n) rest)
      with (c0 :: k :: " "%char :: hex_digits n a ++ take (13 - n) rest) by done.
    rewrite Hlong_line by (rewrite length_app in Hlong; lia).
    cbn [mbind option_bind].
    rewrite read_lines_unfold by (by destruct (drop (13 - n) rest)).
    rewrite fgets_line; cycle 1.
    { by apply Forall_drop. }
    { rewrite length_drop. lia. }
    cbn [fst snd].
    rewrite read_line_skipped; cycle 1.
    { apply nth_Forall; [|done]. apply Forall_app. split.
      - by apply Forall_drop.
      - by apply Forall_cons. }
    cbn [mbind option_bind].
    by destruct (read_lines (length fp) fp).
Qed.

(** The characters after the address in a line of the format. *)
Lemma size_chars size :
  Forall is_digit size →
  Forall (λ c, c ≠ newline ∧ kind_of c = None) (","%char :: size) ∧
  Forall (λ c, c ≠ NUL) (","%char :: size).
Proof.
  intros Hsize. split; (apply Forall_cons; split; [done|]);
    (eapply Forall_impl; [exact Hsize|]); intros c Hc;
    destruct (is_digit_props c Hc) as (? & ? & ?); done.
Qed.

(** A line of the format is read in one or two calls of [fgets]. *)
Lemma read_lines_line c0 k n a size line fp :
  c0 ≠ newline → k ≠ newline → (1 <= n <= 13)%nat →
  Forall is_digit size → (length size <= 14)%nat →
  (∀ tail, Forall (λ c, c ≠ NUL) tail → (tail = [] ∨ ∃ t, tail = ","%char :: t) →
     read_line (c0 :: k :: " "%char :: hex_digits n a ++ tail) = Some line) →
  read_lines (length (line_text c0 k n a size ++ fp)) (line_text c0 k n a size ++ fp)
  = (λ trace, match line with Some tl => tl :: trace | None => trace end)
      <$> read_lines (length fp) fp.
Proof.
  intros Hc0 Hk Hn Hsize Hlen Hline.
  destruct (size_chars size Hsize) as [Hrest Hnul].
  unfold line_text.
  apply (read_lines_two_calls c0 k n a (","%char :: size)); try done.
  - simpl. lia.
  - intros _. apply Hline; [|right; by eexists].
    apply Forall_app. split; [done|]. by apply Forall_cons.
  - intros _. apply Hline; [by apply Forall_take|].
    destruct (13 - n)%nat; [by left | right; by eexists].
Qed.

Lemma read_lines_print ls :
  Forall well_formed ls →
  read_lines (length (print_file ls)) (print_file ls) = Some (events ls).
Proof.
  unfold print_file, events.
  induction ls as [|l ls IH]; intros Hwf; [done|].
  apply Forall_cons in Hwf as [Hl Hls].
  rewrite bind_cons. cbn [omap list_omap].
  destruct l as [n a size|ty n a size]; destruct Hl as (Hn & Ha & Hsize & Hlen);
    cbn [print_line event_of].
  - assert (Hline : ∀ tail,
      Forall (λ c, c ≠ NUL) tail → (tail = [] ∨ ∃ t, tail = ","%char :: t) →
      read_line ("I"%char :: " "%char :: " "%char :: hex_digits n a ++ tail)
      = Some None).
    { intros tail _ _. by apply read_line_skipped. }
    assert (HI : "I"%char ≠ newline) by done.
    assert (Hsp : " "%char ≠ newline) by done.
    rewrite (read_lines_line _ _ _ _ _ None _ HI Hsp Hn Hsize Hlen Hline).
    by rewrite (IH Hls).
  - destruct (kind_char_props ty) as (_ & _ & _ & Hnl).
    assert (Hline : ∀ tail,
      Forall (λ c, c ≠ NUL) tail → (tail = [] ∨ ∃ t, tail = ","%char :: t) →
      read_line (" "%char :: kind_char ty :: " "%char :: hex_digits n a ++ tail)
      = Some (Some (TraceLine ty a))).
    { intros tail Hnul Htail. apply read_line_data; try done. lia. }
    assert (Hsp : " "%char ≠ newline) by done.
    rewrite (read_lines_line _ _ _ _ _ (Some (TraceLine ty a)) _
               Hsp Hnl Hn Hsize Hlen Hline).
    by rewrite (IH Hls).
Qed.

(** X10. A file in the format of Lackey is read back as it was written:
    for lines with addresses of 1 to 13 hexadecimal digits and sizes of
    at most 14 decimal digits, [read_trace] returns the data accesses
    in order, with their kinds and addresses, and leaves out the
    instruction lines; the program on the file is [main] on these
    accesses. *)
Theorem read_trace_print ls :
  Forall well_formed ls → ls ≠ [] →
  read_trace (Some (print_file ls)) = Some (Some (events ls)) ∧
  ∀ argc s E b,
    csim argc s E b (Some (print_file ls)) = main argc s E b (Some (events ls)).
Proof.
  intros Hwf Hne.
  assert (Hread : read_trace (Some (print_file ls)) = Some (Some (events ls))).
  { apply read_trace_Some; [|by apply read_lines_print].
    destruct ls as [|[n a size|ty n a size] ls]; done. }
  split; [done|]. intros argc s E b. unfold csim. rewrite Hread.
  unfold main. destruct (argc =? 1); [done|].
  by destruct (cache_init s E b globals0).
Qed.

Lemma read_trace_print_witness :
  Forall well_formed [Instr 8 67164116 ["3"%char]; Data LOAD 9 34342962632 ["8"%char]] ∧
  read_trace
    (Some (print_file [Instr 8 67164116 ["3"%char]; Data LOAD 9 34342962632 ["8"%char]]))
  = Some (Some (events [Instr 8 67164116 ["3"%char]; Data LOAD 9 34342962632 ["8"%char]])) ∧
  ∀ argc s E b,
    csim argc s E b
      (Some (print_file [Instr 8 67164116 ["3"%char]; Data LOAD 9 34342962632 ["8"%char]]))
    = main argc s E b
        (Some (events [Instr 8 67164116 ["3"%char]; Data LOAD 9 34342962632 ["8"%char]])).
Proof.
  assert (Hwf : Forall well_formed
    [Instr 8 67164116 ["3"%char]; Data LOAD 9 34342962632 ["8"%char]]).
  { repeat (first [apply Forall_nil | apply Forall_cons; split]);
      repeat split;
      repeat (first [apply Forall_nil | apply Forall_cons; split]);
      first [lia | by vm_compute | simpl; lia | unfold is_digit; simpl; lia | done]. }
  split; [exact Hwf|].
  apply (read_trace_print
           [Instr 8 67164116 ["3"%char]; Data LOAD 9 34342962632 ["8"%char]]);
    [exact Hwf | discriminate].
Defined.

Lemma read_trace_fits_witness :
  [" "%char; "L"%char; " "%char; "1"%char] ≠ [] ∧
  read_trace (Some [" "%char; "L"%char; " "%char; "1"%char])
  = Some (Some [TraceLine LOAD 1]) ∧
  (2 * length [TraceLine LOAD 1] <= length [" "%char; "L"%char; " "%char; "1"%char])%nat.
Proof.
  split; [discriminate|].
  apply (proj1 read_trace_fits [" "%char; "L"%char; " "%char; "1"%char]
           [TraceLine LOAD 1]); [discriminate | reflexivity].
Defined.

(** ** Lines without an address *)






(** ** Addresses of more than 13 digits *)

Lemma hex_digits_add m k a :
  0 <= a →
  hex_digits (m + k) a = hex_digits m (a / 16 ^ Z.of_nat k) ++ hex_digits k a.
Proof.
  intros Ha. induction m as [|m IH]; [done|].
  cbn [Nat.add hex_digits app]. rewrite IH. f_equal. f_equal. f_equal.
  rewrite Z.div_div by (try apply Z.pow_pos_nonneg; try apply Z.pow_nonzero; lia).
  by rewrite <- Z.pow_add_r, Nat2Z.inj_add, Z.add_comm by lia.
Qed.

(** X12. The buffer of [fgets] takes 16 characters, so of an address
    written with 14 to 16 digits only the first 13 are read: the line
    enters the trace with the address divided by [16^(n - 13)], and
    what is left of the line is skipped. *)
Theorem read_trace_long_address ty n a size fp trace :
  (14 <= n <= 16)%nat → 0 <= a < 16 ^ Z.of_nat n →
  Forall is_digit size → (length size <= 11)%nat →
  read_lines (length fp) fp = Some trace →
  read_trace (Some (print_line (Data ty n a size) ++ fp))
  = Some (Some (TraceLine ty (a / 16 ^ (Z.of_nat n - 13)) :: trace)).
Proof.
  intros Hn Ha Hsize Hlen Hfp.
  destruct (size_chars size Hsize) as [Hrest Hnul].
  destruct (kind_char_props ty) as (_ & _ & _ & Hknl).
  set (low := hex_digits (n - 13) a).
  set (a' := a / 16 ^ Z.of_nat (n - 13)).
  assert (Hsp : " "%char ≠ newline) by done.
  assert (Ha' : 0 <= a' < 16 ^ Z.of_nat 13).
  { unfold a'. assert (0 < 16 ^ Z.of_nat (n - 13)) by (apply Z.pow_pos_nonneg; lia).
    split; [apply Z.div_pos; lia|].
    apply Z.div_lt_upper_bound; [done|].
    rewrite <- Z.pow_add_r by lia.
    replace (Z.of_nat (n - 13) + Z.of_nat 13) with (Z.of_nat n) by lia. lia. }
  assert (Hfile : print_line (Data ty n a size) ++ fp
    = (" "%char :: kind_char ty :: " "%char
         :: hex_digits 13 a' ++ (low ++ ","%char :: size) ++ [newline]) ++ fp).
  { cbn [print_line]. unfold line_text, a', low.
    replace n with (13 + (n - 13))%nat at 1 by lia.
    rewrite hex_digits_add by lia. cbn [app]. do 4 f_equal.
    by rewrite <- !app_assoc. }
  assert (Hn13 : (1 <= 13 <= 13)%nat) by lia.
  assert (Hchars : Forall (λ c, c ≠ newline ∧ kind_of c = None) (low ++ ","%char :: size)).
  { apply Forall_app. split; [|done].
    eapply Forall_impl; [apply hex_digits_chars|]. intros c (d & Hd & ->).
    by destruct (hex_char_props _ Hd) as (_ & _ & ? & _ & ? & _). }
  assert (Hlow : (length (low ++ ","%char :: size) <= 15)%nat).
  { rewrite length_app. unfold low. rewrite length_hex_digits. simpl. lia. }
  assert (Hshort : (length (low ++ ","%char :: size) + 13 + 3 < 16)%nat →
    read_line (" "%char :: kind_char ty :: " "%char
                 :: hex_digits 13 a' ++ (low ++ ","%char :: size) ++ [newline])
    = Some (Some (TraceLine ty a'))) by lia.
  assert (Hlong : (16 <= length (low ++ ","%char :: size) + 13 + 3)%nat →
    read_line (" "%char :: kind_char ty :: " "%char
                 :: hex_digits 13 a' ++ take (13 - 13) (low ++ ","%char :: size))
    = Some (Some (TraceLine ty a'))).
  { intros _. cbn [take Nat.sub]. apply read_line_data; try done; [lia | by left]. }
  apply read_trace_Some; [done|]. rewrite Hfile.
  rewrite (read_lines_two_calls _ _ 13 a' _ (Some (TraceLine ty a')) fp
             Hsp Hknl Hn13 Hchars Hlow Hshort Hlong).
  rewrite Hfp. simpl. do 3 f_equal. unfold a'. by rewrite Nat2Z.inj_sub by lia.
Qed.

Lemma read_trace_long_address_witness :
  (14 <= 14 <= 16)%nat ∧ 0 <= 2 ^ 52 + 5 < 16 ^ Z.of_nat 14 ∧
  read_trace (Some (print_line (Data STORE 14 (2 ^ 52 + 5) ["8"%char]) ++ []))
  = Some (Some [TraceLine STORE ((2 ^ 52 + 5) / 16 ^ (Z.of_nat 14 - 13))]).
Proof.
  split_and!; [lia | lia | lia | by vm_compute |].
  apply (read_trace_long_address STORE 14 (2 ^ 52 + 5) ["8"%char] [] []);
    [lia | split; [lia | by vm_compute] | | simpl; lia | reflexivity].
  apply Forall_cons; split; [unfold is_digit; simpl; lia | by apply Forall_nil].
Defined.
